(** * action-read-yaml: a shallow embedding of [src/index.js]

    The action reads a YAML file, flattens it to dotted keys, resolves
    [$(name)] references between values, filters and renames the keys with
    a regular expression and publishes the result as outputs and
    environment variables.

    JavaScript strings are modelled by [string], JavaScript values by the
    inductive type [value], the objects used as maps by their own
    properties, an association list kept in property order, together
    with their prototype, and the calls to [@actions/core] by a trace of
    events.  A property read that finds no own property goes on to
    [Object.prototype], and an assignment to [__proto__] reaches its
    setter. *)

From Stdlib Require Import Strings.String Strings.Ascii Lists.List.
From Stdlib Require Import ZArith NArith Arith Bool Lia.
From Stdlib Require Import Numbers.DecimalString Numbers.DecimalNat Numbers.DecimalN.
Import ListNotations.

Local Open Scope string_scope.
Local Open Scope list_scope.

Set Warnings "-register-all".

(** ** Strings *)

Module Str.

Fixpoint take (n : nat) (s : string) : string :=
  match n, s with
  | S n', String c s' => String c (take n' s')
  | _, _ => ""
  end.

Fixpoint drop (n : nat) (s : string) : string :=
  match n, s with
  | S n', String _ s' => drop n' s'
  | _, _ => s
  end.

Fixpoint map (f : ascii -> ascii) (s : string) : string :=
  match s with
  | "" => ""
  | String c s' => String (f c) (map f s')
  end.

Fixpoint mem (c : ascii) (s : string) : bool :=
  match s with
  | "" => false
  | String d s' => Ascii.eqb c d || mem c s'
  end.

(** [String.prototype.indexOf]: the position of the first occurrence. *)
Fixpoint indexOf (pat s : string) : option nat :=
  if prefix pat s then Some 0
  else match s with
       | "" => None
       | String _ s' => option_map S (indexOf pat s')
       end.

(** The decimal numeral of a natural number, as [String(i)] gives it. *)
Definition of_nat (n : nat) : string :=
  NilEmpty.string_of_uint (Nat.to_uint n).

(** The decimal numeral of an integer. *)
Definition of_Z (z : Z) : string :=
  match z with
  | Z0 => "0"
  | Zpos p => NilEmpty.string_of_uint (Pos.to_uint p)
  | Zneg p => String "-" (NilEmpty.string_of_uint (Pos.to_uint p))
  end.

End Str.

(** ** JavaScript values *)

(** Numbers are the integers among the JavaScript numbers that are
    written without an exponent, as the safe integers are; objects
    carry their own enumerable properties in the order [Object.entries]
    lists them. *)
Inductive value : Type :=
| VUndefined
| VNull
| VBool (b : bool)
| VNum (z : Z)
| VStr (s : string)
| VArr (l : list value)
| VObj (l : list (string * value)).

(** [if (v)]: the conversion to a boolean. *)
Definition truthy (v : value) : bool :=
  match v with
  | VUndefined | VNull => false
  | VBool b => b
  | VNum z => negb (Z.eqb z 0)
  | VStr s => negb (String.eqb s "")
  | VArr _ | VObj _ => true
  end.

(** [String(v)], the conversion a template literal and [replace] apply. *)
Fixpoint ToString (v : value) : string :=
  match v with
  | VUndefined => "undefined"
  | VNull => "null"
  | VBool true => "true"
  | VBool false => "false"
  | VNum z => Str.of_Z z
  | VStr s => s
  | VArr l =>
      let elt v := match v with VUndefined | VNull => "" | _ => ToString v end in
      String.concat "," (List.map elt l)
  | VObj _ => "[object Object]"
  end.

(** ** Plain objects used as maps *)

(** The object [{}] creates has [Object.prototype] as its prototype;
    assigning [null] to its [__proto__] leaves it without one. *)
Inductive prototype : Type := ObjectPrototype | NullPrototype.

(** An object used as a map: its own enumerable properties, in the order
    [Object.entries] lists them, and its prototype. *)
Record obj : Type := mkObj {
  own_properties : list (string * value);
  proto : prototype
}.

Coercion own_properties : obj >-> list.

(** The object of a literal: [{}] is [literal []]. *)
Definition literal (l : list (string * value)) : obj := mkObj l ObjectPrototype.

(** A list written where an object is expected stands for the object of
    the literal with these properties; the expected type is passed into
    pairs, and into results below, so that this also holds there. *)
#[warnings="-uniform-inheritance,-ambiguous-paths"]
Coercion literal : list >-> obj.

Arguments pair {A B} & x y.

(** What a property read [m[k]] finds: a value, one of the functions of
    [Object.prototype], or nothing, in which case the read gives
    [undefined]. *)
Inductive property : Type :=
| Value (v : value)
| Method (name : string)
| Absent.

Module Obj.

(** The own property [k], if there is one. *)
Fixpoint own (m : list (string * value)) (k : string) : option value :=
  match m with
  | [] => None
  | (k', v) :: m' => if String.eqb k k' then Some v else own m' k
  end.

(** The functions every object inherits from [Object.prototype]. *)
Definition methods : list string :=
  ["constructor"; "__defineGetter__"; "__defineSetter__"; "hasOwnProperty";
   "__lookupGetter__"; "__lookupSetter__"; "isPrototypeOf";
   "propertyIsEnumerable"; "toString"; "valueOf"; "toLocaleString"].

(** The names [Object.prototype] defines. *)
Definition inherited_name (k : string) : bool :=
  String.eqb k "__proto__" || existsb (String.eqb k) methods.

(** A read that reaches [Object.prototype]: the accessor [__proto__]
    gives the prototype of the receiver, which is [Object.prototype]
    itself, an object; the other names give functions. *)
Definition inherited (k : string) : property :=
  if String.eqb k "__proto__" then Value (VObj [])
  else if existsb (String.eqb k) methods then Method k
  else Absent.

(** [m[k]]: the own property if there is one, else what the prototype
    chain gives. *)
Definition get (m : obj) (k : string) : property :=
  match own m k with
  | Some v => Value v
  | None =>
      match proto m with
      | ObjectPrototype => inherited k
      | NullPrototype => Absent
      end
  end.

(** [if (m[k])]: a function is an object, so it is truthy. *)
Definition defined (p : property) : bool :=
  match p with
  | Value v => truthy v
  | Method _ => true
  | Absent => false
  end.

(** A property name is an array index when it is the canonical numeral
    of an integer below [2^32 - 1]; such names are enumerated first, in
    ascending order. *)
Definition array_index (k : string) : option N :=
  match NilEmpty.uint_of_string k with
  | Some u =>
      let n := N.of_uint u in
      if String.eqb (NilEmpty.string_of_uint (N.to_uint n)) k
         && N.ltb n 4294967295
      then Some n else None
  | None => None
  end.

Fixpoint update (m : list (string * value)) (k : string) (v : value)
  : list (string * value) :=
  match m with
  | [] => []
  | (k', v') :: m' =>
      if String.eqb k k' then (k', v) :: m' else (k', v') :: update m' k v
  end.

Fixpoint insert_index (n : N) (k : string) (v : value)
  (m : list (string * value)) : list (string * value) :=
  match m with
  | [] => [(k, v)]
  | (k', v') :: m' =>
      match array_index k' with
      | Some n' =>
          if N.ltb n n' then (k, v) :: m
          else (k', v') :: insert_index n k v m'
      | None => (k, v) :: m
      end
  end.

(** The own property [k] is given the value [v]: an existing property
    keeps its place, a new one is created at the place property order
    gives it. *)
Definition put (m : list (string * value)) (k : string) (v : value)
  : list (string * value) :=
  match own m k with
  | Some _ => update m k v
  | None =>
      match array_index k with
      | Some n => insert_index n k v m
      | None => m ++ [(k, v)]
      end
  end.

(** [m[k] = v].  The name [__proto__] that is no own property of [m]
    reaches the setter of [Object.prototype], which creates no property:
    [null] removes the prototype and a string, a number, a boolean or
    [undefined] changes nothing.  An array or an object would become the
    prototype; no model of such a prototype is kept, as the traversal
    assigns the result of [resolveVariables] on a leaf, never an array
    or an object, and of the object [resolveVariables] builds only the
    own properties are read.  Without a prototype [__proto__] is a name
    as any other. *)
Definition set (m : obj) (k : string) (v : value) : obj :=
  if String.eqb k "__proto__" then
    match own m k, proto m with
    | None, ObjectPrototype =>
        match v with
        | VNull => mkObj m NullPrototype
        | _ => m
        end
    | _, _ => mkObj (put m k v) (proto m)
    end
  else mkObj (put m k v) (proto m).

End Obj.

(** ** Results of code that can throw *)

(** [Hang] is the result of a loop that was still running when the fuel
    ran out. *)
Inductive result (A : Type) : Type :=
| Ok (a : A)
| Throw (message : string)
| Hang.
Arguments Ok {A} & a.
Arguments Throw {A} message.
Arguments Hang {A}.

Definition rmap {A B : Type} (f : A -> B) (r : result A) : result B :=
  match r with
  | Ok a => Ok (f a)
  | Throw e => Throw e
  | Hang => Hang
  end.

(** ** [resolveVariables] *)

(** The regular expression [/\$\(([^\)]+)\)/] of [resolveVariables].
    [scan_name s] reads the run of characters other than [")"] at the
    head of [s] and succeeds when a [")"] ends it. *)
Fixpoint scan_name (s : string) : option string :=
  match s with
  | "" => None
  | String c s' =>
      if Ascii.eqb c ")" then Some ""
      else option_map (String c) (scan_name s')
  end.

(** The capture group of a match that starts at the head of [s]. *)
Definition token_at (s : string) : option string :=
  match s with
  | String "$" (String "(" r) =>
      match scan_name r with
      | Some "" => None
      | other => other
      end
  | _ => None
  end.

(** [current.match(pattern)]: the index of the leftmost match and its
    capture group [found[1]]. *)
Fixpoint find_token (s : string) : option (nat * string) :=
  match token_at s with
  | Some name => Some (0, name)
  | None =>
      match s with
      | "" => None
      | String _ s' =>
          match find_token s' with
          | Some (i, name) => Some (S i, name)
          | None => None
          end
      end
  end.

(** [found[0]], the text the match consumed. *)
Definition token (name : string) : string := "$(" ++ name ++ ")".

(** [GetSubstitution] of ECMAScript for a match without capture groups:
    in the replacement text [$$] stands for a dollar sign, [$&] for the
    matched text, [$`] for the text before it and [$'] for the text after
    it; every other character stands for itself. *)
Fixpoint GetSubstitution (matched before after template : string) : string :=
  match template with
  | "" => ""
  | String c t =>
      if Ascii.eqb c "$" then
        match t with
        | String d t' =>
            if Ascii.eqb d "$" then
              String "$" (GetSubstitution matched before after t')
            else if Ascii.eqb d "&" then
              matched ++ GetSubstitution matched before after t'
            else if Ascii.eqb d "`" then
              before ++ GetSubstitution matched before after t'
            else if Ascii.eqb d "'" then
              after ++ GetSubstitution matched before after t'
            else String c (GetSubstitution matched before after t)
        | "" => String c ""
        end
      else String c (GetSubstitution matched before after t)
  end.

(** [s.replace(pat, v)] for a string [pat]: the first occurrence of
    [pat] is replaced by the substitution computed from [String(v)]. *)
Definition String_replace (s pat : string) (v : value) : string :=
  match Str.indexOf pat s with
  | None => s
  | Some pos =>
      let before := Str.take pos s in
      let after := Str.drop (pos + String.length pat) s in
      before ++ GetSubstitution pat before after (ToString v) ++ after
  end.

(** The double quote. *)
Definition quote : string := String "034" "".

(** [`Variable "${ref}" is not defined`] *)
Definition not_defined (ref : string) : string :=
  "Variable " ++ quote ++ ref ++ quote ++ " is not defined".

(** The message of the [TypeError] a function of [Object.prototype]
    throws when it is called without a receiver; its wording is the
    engine's own. *)
Definition receiver_TypeError : string :=
  "Cannot convert undefined or null to object".

(** The call [f(matched, position, subject)] that [replace] makes,
    without a receiver, when the replacement is the function [name] of
    [Object.prototype], and the conversion of its result to a string:
    [Object] wraps the matched text, [toString] names the missing
    receiver, [isPrototypeOf] answers [false] for a string and the
    others convert the receiver to an object first. *)
Definition call_method (name matched : string) : result string :=
  if String.eqb name "constructor" then Ok matched
  else if String.eqb name "toString" then Ok "[object Undefined]"
  else if String.eqb name "isPrototypeOf" then Ok "false"
  else Throw receiver_TypeError.

(** [s.replace(pat, m[k])]: a value is converted to a string and read as
    a replacement pattern; the result of a function is inserted as it
    is. *)
Definition replace_with (s pat : string) (p : property) : result string :=
  match p with
  | Value v => Ok (String_replace s pat v)
  | Absent => Ok (String_replace s pat VUndefined)
  | Method name =>
      match Str.indexOf pat s with
      | None => Ok s
      | Some pos =>
          rmap (fun text =>
                  (Str.take pos s ++ text
                     ++ Str.drop (pos + String.length pat) s)%string)
               (call_method name pat)
      end
  end.

(** The [while] loop of [resolveVariables]: every turn looks for the
    leftmost token of [current], throws when the read of the name it
    refers to gives nothing truthy, and otherwise replaces the token and
    scans the new text again from its start.  A turn of the loop costs
    one unit of fuel. *)
Fixpoint resolve_loop (fuel : nat) (current : string) (lookup : obj)
  : result string :=
  match find_token current with
  | None => Ok current
  | Some (_, ref) =>
      if negb (Obj.defined (Obj.get lookup ref)) then Throw (not_defined ref)
      else
        match fuel with
        | O => Hang
        | S fuel' =>
            match replace_with current (token ref) (Obj.get lookup ref) with
            | Ok next => resolve_loop fuel' next lookup
            | Throw e => Throw e
            | Hang => Hang
            end
        end
  end.

(** [resolveVariables(input, lookup)]: an array or an object gives an
    object with the resolved members, a string goes through the loop,
    anything else is returned as it is. *)
Fixpoint resolveVariables (fuel : nat) (input : value) (lookup : obj)
  {struct input} : result value :=
  match input with
  | VArr l =>
      (fix each (l : list value) (i : nat) (res : obj) : result value :=
         match l with
         | [] => Ok (VObj res)
         | v :: l' =>
             match resolveVariables fuel v lookup with
             | Ok r => each l' (S i) (Obj.set res (Str.of_nat i) r)
             | Throw e => Throw e
             | Hang => Hang
             end
         end) l 0 (literal [])
  | VObj props =>
      (fix each (props : list (string * value)) (res : obj) : result value :=
         match props with
         | [] => Ok (VObj res)
         | (key, v) :: props' =>
             match resolveVariables fuel v lookup with
             | Ok r => each props' (Obj.set res key r)
             | Throw e => Throw e
             | Hang => Hang
             end
         end) props (literal [])
  | VStr s => rmap VStr (resolve_loop fuel s lookup)
  | _ => Ok input
  end.

(** ** The calls to [@actions/core] *)

Inductive event : Type :=
| LogInfo (message : string)
| LogError (message : string)
| SetOutput (name : string) (v : value)
| ExportVariable (name : string) (v : value)
| SetFailed (message : string).

(** A piece of the pipeline gives the events it emitted, also when it
    throws, and the mapping it leaves. *)
Definition outcome : Type := (list event * result obj)%type.

(** The next piece runs on the mapping the first one leaves; after an
    exception nothing more runs. *)
Definition andThen (x : outcome) (k : obj -> outcome) : outcome :=
  match x with
  | (es, Ok m) => let (es', r) := k m in (es ++ es', r)
  | (es, Throw e) => (es, Throw e)
  | (es, Hang) => (es, Hang)
  end.

(** ** [traverse] *)

(** [path ? `${path}.${key}` : key] *)
Definition full_key (path key : string) : string :=
  if String.eqb path "" then key else path ++ "." ++ key.

(** [val && typeof val === "object"] *)
Definition is_container (val : value) : bool :=
  match val with
  | VArr _ | VObj _ => true
  | _ => false
  end.

(** The [else] branch of the loop body: the leaf is resolved against the
    mapping built so far and stored under its flat key. *)
Definition store_leaf (fuel : nat) (fullKey : string) (val : value) (m : obj)
  : outcome :=
  ([], rmap (Obj.set m fullKey) (resolveVariables fuel val m)).

(** [Array.isArray(val)] *)
Definition isArray (val : value) : bool :=
  match val with
  | VArr _ => true
  | _ => false
  end.

(** The body of the [for] loop of [traverse] for the entry [key, val];
    [descend] is the recursive call. *)
Definition visit (descend : value -> string -> obj -> outcome)
  (fuel : nat) (path key : string) (val : value) (m : obj) : outcome :=
  let fullKey := full_key path key in
  if is_container val then
    let announced :=
      if isArray val then [SetOutput (fullKey ++ ".array") val] else [] in
    let (es, r) := descend val fullKey m in
    (announced ++ es, r)
  else store_leaf fuel fullKey val m.

(** [Object.entries] of a string: its characters under their indices. *)
Fixpoint chars (s : string) (i : nat) : list (string * value) :=
  match s with
  | "" => []
  | String c s' => (Str.of_nat i, VStr (String c "")) :: chars s' (S i)
  end.

(** The loop of [traverse] over entries that are all leaves. *)
Fixpoint store_leaves (fuel : nat) (path : string)
  (entries : list (string * value)) (m : obj) : outcome :=
  match entries with
  | [] => ([], Ok m)
  | (key, val) :: rest =>
      andThen (store_leaf fuel (full_key path key) val m)
              (store_leaves fuel path rest)
  end.

(** The message of the [TypeError] of [Object.entries(undefined)]. *)
Definition entries_TypeError : string :=
  "Cannot convert undefined or null to object".

(** [traverse(node, path)], threading [resolvedValues]. *)
Fixpoint traverse (fuel : nat) (node : value) (path : string) (m : obj)
  {struct node} : outcome :=
  match node with
  | VArr l =>
      (fix loop (l : list value) (i : nat) (m : obj) : outcome :=
         match l with
         | [] => ([], Ok m)
         | val :: l' =>
             andThen (visit (traverse fuel) fuel path (Str.of_nat i) val m)
                     (loop l' (S i))
         end) l 0 m
  | VObj props =>
      (fix loop (props : list (string * value)) (m : obj) : outcome :=
         match props with
         | [] => ([], Ok m)
         | (key, val) :: props' =>
             andThen (visit (traverse fuel) fuel path key val m)
                     (loop props')
         end) props m
  | VStr s => store_leaves fuel path (chars s 0) m
  | VUndefined | VNull => ([], Throw entries_TypeError)
  | VBool _ | VNum _ => ([], Ok m)
  end.

(** ** Regular expressions *)

(** The matcher of a compiled pattern: given the subject and a start
    index it gives the end index of the match that starts there, if
    there is one.  The matchers of ECMAScript are well formed: a match
    that starts inside the subject ends at or after its start and
    inside the subject. *)
Definition matcher : Type := string -> nat -> option nat.

Definition wf_matcher (m : matcher) : Prop :=
  forall s i e,
    i <= String.length s -> m s i = Some e -> i <= e <= String.length s.

(** A regular expression object with the global flag. *)
Record RegExp : Type := mkRegExp { matcher_of : matcher; lastIndex : nat }.

(** The search of [RegExpBuiltinExec]: the start indices [i], [i + 1],
    ... are tried in turn, [n] of them; the result is the span of the
    first match. *)
Fixpoint search (m : matcher) (s : string) (n i : nat) : option (nat * nat) :=
  match n with
  | O => None
  | S n' =>
      match m s i with
      | Some e => Some (i, e)
      | None => search m s n' (S i)
      end
  end.

(** The search from [from] up to the end of the subject. *)
Definition search_from (m : matcher) (s : string) (from : nat)
  : option (nat * nat) :=
  search m s (S (String.length s) - from) from.

(** [re.test(s)]: a successful match leaves [lastIndex] at its end, a
    failed one resets it. *)
Definition RegExp_test (re : RegExp) (s : string) : bool * RegExp :=
  match search_from (matcher_of re) s (lastIndex re) with
  | Some (_, e) => (true, mkRegExp (matcher_of re) e)
  | None => (false, mkRegExp (matcher_of re) 0)
  end.

(** The loop of [s.replace(re, rep)] for a global [re] and a replacement
    text without dollar sign: the next match is searched from
    [lastIndex], one index further after an empty match; the text
    between [next] and the match is kept and the match is replaced. *)
Fixpoint replace_loop (fuel : nat) (m : matcher) (s rep : string)
  (lastIndex next : nat) : string :=
  match fuel with
  | O => Str.drop next s
  | S fuel' =>
      match search_from m s lastIndex with
      | None => Str.drop next s
      | Some (i, e) =>
          let lastIndex' := if Nat.leb e i then S e else e in
          if Nat.leb next i then
            Str.take (i - next) (Str.drop next s) ++ rep
              ++ replace_loop fuel' m s rep lastIndex' (i + (e - i))
          else replace_loop fuel' m s rep lastIndex' next
      end
  end.

(** [s.replace(re, rep)]: the search starts at index 0 whatever
    [lastIndex] was and leaves it at 0. *)
Definition String_replace_all (s : string) (re : RegExp) (rep : string)
  : string * RegExp :=
  (replace_loop (S (S (String.length s))) (matcher_of re) s rep 0 0,
   mkRegExp (matcher_of re) 0).

(** The matcher of a character class such as [[.\-]]. *)
Definition class_matcher (members : string) : matcher :=
  fun s i =>
    match String.get i s with
    | Some c => if Str.mem c members then Some (S i) else None
    | None => None
    end.

(** [const envNameCleaner = /[.\-]/g] *)
Definition envNameCleaner : RegExp := mkRegExp (class_matcher ".-") 0.

(** ** The filter and the publication loop of [run] *)

(** The decision of the loop body for one key: whether it is included,
    its output key, and the state of [patternRegex] afterwards. *)
Definition filter_key (patternRegex : option RegExp) (fullKey : string)
  : bool * string * option RegExp :=
  match patternRegex with
  | Some re =>
      let (found, re1) := RegExp_test re fullKey in
      if found then
        let (outputKey, re2) := String_replace_all fullKey re1 "" in
        (true, outputKey, Some (mkRegExp (matcher_of re2) 0))
      else (false, fullKey, Some re1)
  | None => (true, fullKey, None)
  end.

(** [`${envPrefix}_${outputKey.replace(envNameCleaner, "_")}`] *)
Definition env_name (envPrefix outputKey : string) : string :=
  envPrefix ++ "_" ++ fst (String_replace_all outputKey envNameCleaner "_").

(** What the loop body publishes for an included key. *)
Definition publish_entry (envPrefix outputKey : string) (rawValue : value)
  : list event :=
  [LogInfo (outputKey ++ " : " ++ ToString rawValue); SetOutput outputKey rawValue]
  ++ (if negb (String.eqb envPrefix "") then
        [LogInfo (env_name envPrefix outputKey ++ "=" ++ ToString rawValue);
         ExportVariable (env_name envPrefix outputKey) rawValue]
      else []).

(** [for (const [fullKey, rawValue] of Object.entries(resolvedValues))]:
    the loop over the own properties of the mapping. *)
Fixpoint publish (patternRegex : option RegExp) (envPrefix : string)
  (entries : list (string * value)) : list event :=
  match entries with
  | [] => []
  | (fullKey, rawValue) :: rest =>
      let '(include, outputKey, patternRegex') :=
        filter_key patternRegex fullKey in
      (if include then publish_entry envPrefix outputKey rawValue else [])
      ++ publish patternRegex' envPrefix rest
  end.

(** ** [run] *)

(** What [fs.readFile] hands to its callback: an error with its
    message, or the text of the file. *)
Inductive read : Type :=
| Unreadable (message : string)
| Contents (raw : string).

(** What [axios.get] did: it resolved, it was rejected with the status
    403, or it failed otherwise. *)
Inductive response : Type := Resolved | Forbidden | Unreachable.

(** The world around one invocation: the answer of the subscription
    service; the inputs of the step, where [getInput] gives the empty
    string for an input that is not set; the file system; the YAML
    parser with the failsafe schema, which returns the parsed document
    or throws; the [RegExp] constructor with the flag [g], which returns
    the matcher of the pattern or throws; and the fuel of the loops. *)
Record world : Type := mkWorld {
  subscription : response;
  getInput : string -> string;
  readFile : string -> read;
  yaml_load : string -> result value;
  RegExp_new : string -> result matcher;
  fuel_of : nat
}.

(** How the process ends: it runs to its end, [process.exit] stops it,
    an exception nobody catches stops it, or it is still in a loop. *)
Inductive ending : Type :=
| Finished
| Exited (code : nat)
| Uncaught (message : string)
| Looping.

(** The exit code of the process: Node ends a process in which an
    exception was caught by nobody with the code 1, after it printed
    the exception with its message. *)
Definition exit_code (e : ending) : option nat :=
  match e with
  | Finished => Some 0
  | Exited code => Some code
  | Uncaught _ => Some 1
  | Looping => None
  end.

(** The message of the exception that ended the process. *)
Definition failure_message (e : ending) : option string :=
  match e with
  | Uncaught message => Some message
  | _ => None
  end.

(** The runner fails the step of an action whose process ends with an
    exit code other than 0. *)
Definition step_fails (e : ending) : bool :=
  match exit_code e with
  | Some 0 | None => false
  | Some _ => true
  end.

(** [validateSubscription]: the events, and whether the process goes on. *)
Definition validateSubscription (w : world) : list event * bool :=
  match subscription w with
  | Resolved => ([], true)
  | Forbidden =>
      ([LogError "Subscription is not valid. Reach out to support@stepsecurity.io"],
       false)
  | Unreachable =>
      ([LogInfo "Timeout or API not reachable. Continuing to next step."], true)
  end.

(** The callback of [fs.readFile] once the file is read: the events it
    emits and the exception it throws, if any. *)
Definition on_read (w : world) (filterPattern envPrefix raw : string)
  : list event * result unit :=
  let banner :=
    (if negb (String.eqb filterPattern "") then
       [LogInfo ("Filter pattern detected: " ++ filterPattern)]
     else [])
    ++ [LogInfo "YAML file content loaded successfully."] in
  match yaml_load w raw with
  | Throw e => (banner, Throw e)
  | Hang => (banner, Hang)
  | Ok parsed =>
      match traverse (fuel_of w) parsed "" [] with
      | (es, Throw e) => (banner ++ es, Throw e)
      | (es, Hang) => (banner ++ es, Hang)
      | (es, Ok resolvedValues) =>
          if negb (String.eqb filterPattern "") then
            match RegExp_new w filterPattern with
            | Throw e => (banner ++ es, Throw e)
            | Hang => (banner ++ es, Hang)
            | Ok m =>
                (banner ++ es
                 ++ publish (Some (mkRegExp m 0)) envPrefix resolvedValues,
                 Ok tt)
            end
          else
            (banner ++ es ++ publish None envPrefix resolvedValues, Ok tt)
      end
  end.

(** The callback [(error, raw) => ...] handed to [fs.readFile]. *)
Definition callback (w : world) (filterPattern envPrefix : string)
  (file : read) : list event * result unit :=
  match file with
  | Unreadable message =>
      ([LogError ("Failed to read YAML: " ++ message)], Ok tt)
  | Contents raw => on_read w filterPattern envPrefix raw
  end.

(** How the [try] block of [run] ends: [process.exit] stops the process,
    an exception reaches the [catch] clause, or the block completes
    after it handed the callback to [fs.readFile], which returns at once
    and completes the read later. *)
Inductive tried : Type :=
| Exits (code : nat)
| Throws (message : string)
| Returns (filterPattern envPrefix : string) (file : read).

Definition run_try (w : world) : list event * tried :=
  let (es, goes_on) := validateSubscription w in
  if goes_on then
    let yamlPath := getInput w "config" in
    let filterPattern := getInput w "key-path-pattern" in
    let envPrefix := getInput w "env-var-prefix" in
    (es, Returns filterPattern envPrefix (readFile w yamlPath))
  else (es, Exits 1).

(** One invocation: the [try] block, its [catch] clause, and then the
    callback, which the event loop calls after [run] has returned, so
    that an exception it throws is caught by nobody. *)
Definition run (w : world) : list event * ending :=
  match run_try w with
  | (es, Exits code) => (es, Exited code)
  | (es, Throws e) => (es ++ [SetFailed e], Finished)
  | (es, Returns filterPattern envPrefix file) =>
      match callback w filterPattern envPrefix file with
      | (es', Ok _) => (es ++ es', Finished)
      | (es', Throw e) => (es ++ es', Uncaught e)
      | (es', Hang) => (es ++ es', Looping)
      end
  end.

(** ** The flattening on its own *)

(** What [traverse] meets, in the order it meets it: a leaf to resolve
    and store under its flat key, or a sequence to announce. *)
Inductive item : Type :=
| Leaf (fullKey : string) (val : value)
| Marker (fullKey : string) (val : value).

Definition visit_items (descend : value -> string -> list item)
  (path key : string) (val : value) : list item :=
  let fullKey := full_key path key in
  match val with
  | VArr _ => Marker fullKey val :: descend val fullKey
  | VObj _ => descend val fullKey
  | _ => [Leaf fullKey val]
  end.

Fixpoint items (node : value) (path : string) {struct node} : list item :=
  match node with
  | VArr l =>
      (fix loop (l : list value) (i : nat) : list item :=
         match l with
         | [] => []
         | val :: l' => visit_items items path (Str.of_nat i) val ++ loop l' (S i)
         end) l 0
  | VObj props =>
      (fix loop (props : list (string * value)) : list item :=
         match props with
         | [] => []
         | (key, val) :: props' => visit_items items path key val ++ loop props'
         end) props
  | VStr s =>
      List.map (fun kv => Leaf (full_key path (fst kv)) (snd kv)) (chars s 0)
  | _ => []
  end.

(** The items handled one after the other. *)
Fixpoint process (fuel : nat) (its : list item) (m : obj) : outcome :=
  match its with
  | [] => ([], Ok m)
  | Leaf fullKey val :: rest =>
      andThen (store_leaf fuel fullKey val m) (process fuel rest)
  | Marker fullKey val :: rest =>
      let (es, r) := process fuel rest m in
      (SetOutput (fullKey ++ ".array") val :: es, r)
  end.

Definition leaf_key (it : item) : option string :=
  match it with
  | Leaf fullKey _ => Some fullKey
  | Marker _ _ => None
  end.

(** The flat keys of the leaves among the items. *)
Fixpoint leaf_keys (its : list item) : list string :=
  match its with
  | [] => []
  | Leaf fullKey _ :: rest => fullKey :: leaf_keys rest
  | Marker _ _ :: rest => leaf_keys rest
  end.


Definition is_string (v : value) : bool :=
  match v with
  | VStr _ => true
  | _ => false
  end.

(** The last branch of [resolveVariables], [return input], is the one
    taken by an input that is neither an object nor a string. *)
Definition passes_through (input : value) : bool :=
  match input with
  | VStr _ | VArr _ | VObj _ => false
  | _ => true
  end.

(** ** The filter as the specification words it *)

(** The key without the first substring the pattern matches. *)
Definition remove_first_match (m : matcher) (s : string) : string :=
  match search_from m s 0 with
  | Some (i, e) => Str.take i s ++ Str.drop e s
  | None => s
  end.

(** The spans of all the matches, left to right: each search resumes at
    the end of the previous match, one index further when that match
    was empty. *)
Fixpoint match_spans (fuel : nat) (m : matcher) (s : string) (from : nat)
  : list (nat * nat) :=
  match fuel with
  | O => []
  | S fuel' =>
      match search_from m s from with
      | None => []
      | Some (i, e) =>
          (i, e) :: match_spans fuel' m s (if Nat.leb e i then S e else e)
      end
  end.

(** The text of [s] from [pos] on, without the spans. *)
Fixpoint without_spans (spans : list (nat * nat)) (s : string) (pos : nat)
  : string :=
  match spans with
  | [] => Str.drop pos s
  | (i, e) :: rest =>
      Str.take (i - pos) (Str.drop pos s) ++ without_spans rest s e
  end.

(** The character that replaces [c] in the name of an environment
    variable. *)
Definition underscore (c : ascii) : ascii :=
  if Ascii.eqb c "." || Ascii.eqb c "-" then "_"%char else c.

(** ** A pattern engine for the examples *)

(** The patterns made of literal characters, escaped punctuation, the
    dot and the two anchors, with the meaning ECMAScript gives them
    without the flags [m] and [s]. *)
Module Pattern.

Inductive atom : Type :=
| Lit (c : ascii)
| Dot
| Bol
| Eol.

Definition syntax_characters : string := "^$\.*+?()[]{}|/-".

Fixpoint parse (p : string) : option (list atom) :=
  match p with
  | "" => Some []
  | String c p' =>
      if Ascii.eqb c "\" then
        match p' with
        | String d p'' =>
            if Str.mem d syntax_characters
            then option_map (cons (Lit d)) (parse p'')
            else None
        | "" => None
        end
      else if Ascii.eqb c "^" then option_map (cons Bol) (parse p')
      else if Ascii.eqb c "$" then option_map (cons Eol) (parse p')
      else if Ascii.eqb c "." then option_map (cons Dot) (parse p')
      else if Str.mem c "*+?()[]{}|" then None
      else option_map (cons (Lit c)) (parse p')
  end.

Definition line_terminator (c : ascii) : bool :=
  Ascii.eqb c "010" || Ascii.eqb c "013".

Fixpoint match_atoms (atoms : list atom) (s : string) (i : nat)
  : option nat :=
  match atoms with
  | [] => Some i
  | Lit c :: rest =>
      match String.get i s with
      | Some d => if Ascii.eqb c d then match_atoms rest s (S i) else None
      | None => None
      end
  | Dot :: rest =>
      match String.get i s with
      | Some d =>
          if line_terminator d then None else match_atoms rest s (S i)
      | None => None
      end
  | Bol :: rest => if Nat.eqb i 0 then match_atoms rest s i else None
  | Eol :: rest =>
      if Nat.eqb i (String.length s) then match_atoms rest s i else None
  end.

(** [new RegExp(p, "g")] on this fragment; a pattern outside the
    fragment is refused. *)
Definition compile (p : string) : result matcher :=
  match parse p with
  | Some atoms => Ok (match_atoms atoms)
  | None => Throw ("Invalid regular expression: /" ++ p ++ "/g")
  end.

End Pattern.

(** ** Worlds for the examples *)

Fixpoint input_of (inputs : list (string * string)) (name : string) : string :=
  match inputs with
  | [] => ""
  | (n, v) :: rest => if String.eqb name n then v else input_of rest name
  end.

(** A world with the given inputs of the step, in which the file [path]
    holds [raw], which the parser reads as [doc]. *)
Definition world_of (inputs : list (string * string)) (path raw : string)
  (doc : value) : world :=
  {| subscription := Resolved;
     getInput := input_of inputs;
     readFile := fun p =>
       if String.eqb p path then Contents raw
       else Unreadable
              ("ENOENT: no such file or directory, open '" ++ p ++ "'")%string;
     yaml_load := fun text =>
       if String.eqb text raw then Ok doc
       else Throw "YAMLException";
     RegExp_new := Pattern.compile;
     fuel_of := 64 |}.

(** The world [w] with the input [name] set to [v]. *)
Definition with_input (w : world) (name v : string) : world :=
  {| subscription := subscription w;
     getInput := fun n => if String.eqb n name then v else getInput w n;
     readFile := readFile w;
     yaml_load := yaml_load w;
     RegExp_new := RegExp_new w;
     fuel_of := fuel_of w |}.

Definition lf : string := String "010" "".

(** Example 3 of the README. *)
Definition filter_yaml : string :=
  "application:" ++ lf ++
  "  config:" ++ lf ++
  "    host: localhost" ++ lf ++
  "    port: 8080" ++ lf ++
  "  credentials:" ++ lf ++
  "    username: admin" ++ lf ++
  "    password: secret" ++ lf ++
  "deployment:" ++ lf ++
  "  path: /opt/app" ++ lf ++
  "  target: production" ++ lf.

Definition filter_doc : value :=
  VObj [("application",
         VObj [("config",
                VObj [("host", VStr "localhost"); ("port", VStr "8080")]);
               ("credentials",
                VObj [("username", VStr "admin"); ("password", VStr "secret")])]);
        ("deployment",
         VObj [("path", VStr "/opt/app"); ("target", VStr "production")])].

(** The names of the outputs and of the environment variables among
    the events. *)
Fixpoint output_names (es : list event) : list string :=
  match es with
  | [] => []
  | SetOutput name _ :: rest => name :: output_names rest
  | _ :: rest => output_names rest
  end.

Fixpoint exported_names (es : list event) : list string :=
  match es with
  | [] => []
  | ExportVariable name _ :: rest => name :: exported_names rest
  | _ :: rest => exported_names rest
  end.

(** The workflow of Example 3 of the README, which gives the pattern
    under the name [key-path]. *)
Definition readme_world : world :=
  world_of [("config", "examples/filter.yaml");
            ("env-var-prefix", "APP_CONF");
            ("key-path", "^application\.config\.")]
    "examples/filter.yaml" filter_yaml filter_doc.

(** The same workflow with the pattern under the name
    [key-path-pattern] and no input [key-path]. *)
Definition pattern_world : world :=
  world_of [("config", "examples/filter.yaml");
            ("env-var-prefix", "APP_CONF");
            ("key-path-pattern", "^application\.config\.")]
    "examples/filter.yaml" filter_yaml filter_doc.

(** A document in which the pattern [config\.] matches a flat key
    twice. *)
Definition nested_world : world :=
  world_of [("config", "nested.yaml"); ("key-path-pattern", "config\.")]
    "nested.yaml"
    ("config:" ++ lf ++ "  app:" ++ lf ++ "    config:" ++ lf
     ++ "      port: 8080" ++ lf)%string
    (VObj [("config",
            VObj [("app", VObj [("config", VObj [("port", VStr "8080")])])])]).

(** A document with a reference to a key it does not define. *)
Definition missing_world : world :=
  world_of [("config", "missing.yaml")] "missing.yaml"
    ("b: $(missing)" ++ lf)%string (VObj [("b", VStr "$(missing)")]).

(** A workflow whose file does not exist. *)
Definition unreadable_world : world :=
  world_of [("config", "absent.yaml"); ("env-var-prefix", "APP")]
    "present.yaml" ("a: 1" ++ lf)%string (VObj [("a", VStr "1")]).

(** A document with a sequence under [list] and a scalar under the
    key [list.array]. *)
Definition clash_doc : value :=
  VObj [("list", VArr [VStr "a"]); ("list.array", VStr "v");
        ("r", VStr "$(list.array)")].

Definition sequence_world : world :=
  world_of [("config", "seq.yaml"); ("env-var-prefix", "APP");
            ("key-path-pattern", "^name")]
    "seq.yaml"
    ("name: web" ++ lf ++ "ports:" ++ lf ++ "  - 80" ++ lf ++ "  - 443" ++ lf)%string
    (VObj [("name", VStr "web"); ("ports", VArr [VStr "80"; VStr "443"])]).

(** The character [replace] puts for [c] when the members of [cls]
    are replaced by [r]. *)
Definition swap (cls : string) (r c : ascii) : ascii :=
  if Str.mem c cls then r else c.

Definition ending_of (r : result unit) : ending :=
  match r with
  | Ok _ => Finished
  | Throw e => Uncaught e
  | Hang => Looping
  end.

(** ** Notions for the properties of the pipeline *)

(** How often the character [c] occurs in [s]. *)
Fixpoint count_char (c : ascii) (s : string) : nat :=
  match s with
  | "" => 0
  | String d s' => (if Ascii.eqb c d then 1 else 0) + count_char c s'
  end.

(** A lookup whose reads give text without a dollar sign, which
    [replace] inserts as it is: its truthy values hold none, and the
    name [constructor] does not read the function [Object] of the
    prototype, which gives the token back; that is, the lookup has a
    property [constructor] of its own or it has no prototype. *)
Definition plain_lookup (lookup : obj) : Prop :=
  (forall k v,
     Obj.own lookup k = Some v -> truthy v = true ->
     Str.mem "$" (ToString v) = false)
  /\ Obj.get lookup "constructor" <> Method "constructor".

(** The outputs among the events, in their order. *)
Fixpoint set_outputs (es : list event) : list (string * value) :=
  match es with
  | [] => []
  | SetOutput name v :: rest => (name, v) :: set_outputs rest
  | _ :: rest => set_outputs rest
  end.

(** The outputs that announce the sequences among the items. *)
Fixpoint announcements (its : list item) : list event :=
  match its with
  | [] => []
  | Marker fullKey val :: rest =>
      SetOutput (fullKey ++ ".array") val :: announcements rest
  | Leaf _ _ :: rest => announcements rest
  end.

(** The number of sequences in a value: the value itself, when it is
    one, and the sequences in its elements or in the values of its
    keys. *)
Fixpoint sequences (v : value) : nat :=
  match v with
  | VArr l => S (list_sum (List.map sequences l))
  | VObj props => list_sum (List.map (fun kv => sequences (snd kv)) props)
  | _ => 0
  end.

(** The number of sequences strictly inside a value: those that are an
    element of a sequence or the value of a key, at any depth. *)
Definition nested_sequences (v : value) : nat :=
  match v with
  | VArr l => list_sum (List.map sequences l)
  | VObj props => list_sum (List.map (fun kv => sequences (snd kv)) props)
  | _ => 0
  end.

(** What the publication loop does for one entry when the pattern
    object is fresh: the key is tested from index 0. *)
Definition publish_key (m : matcher) (envPrefix : string)
  (entry : string * value) : list event :=
  match search_from m (fst entry) 0 with
  | Some _ =>
      publish_entry envPrefix
        (fst (String_replace_all (fst entry) (mkRegExp m 0) "")) (snd entry)
  | None => []
  end.

(** The [lastIndex] the loop body leaves in the pattern object. *)
Definition lastIndex_after (decision : bool * string * option RegExp)
  : option nat :=
  option_map lastIndex (snd decision).

(** The lines [run] logs once the file is read, before it parses it. *)
Definition banner (filterPattern : string) : list event :=
  (if negb (String.eqb filterPattern "") then
     [LogInfo ("Filter pattern detected: " ++ filterPattern)]
   else [])
  ++ [LogInfo "YAML file content loaded successfully."].

(** The world [w] with another answer of the subscription service. *)
Definition with_subscription (w : world) (r : response) : world :=
  {| subscription := r;
     getInput := getInput w;
     readFile := readFile w;
     yaml_load := yaml_load w;
     RegExp_new := RegExp_new w;
     fuel_of := fuel_of w |}.

(** The world [w] with other inputs of the step. *)
Definition with_inputs (w : world) (inputs : string -> string) : world :=
  {| subscription := subscription w;
     getInput := inputs;
     readFile := readFile w;
     yaml_load := yaml_load w;
     RegExp_new := RegExp_new w;
     fuel_of := fuel_of w |}.

(** A world whose pattern does not compile. *)
Definition bad_pattern_world : world :=
  world_of [("config", "seq.yaml"); ("key-path-pattern", "(")]
    "seq.yaml"
    ("name: web" ++ lf ++ "ports:" ++ lf ++ "  - 80" ++ lf)%string
    (VObj [("name", VStr "web"); ("ports", VArr [VStr "80"])]).

(** A world whose file the parser refuses. *)
Definition malformed_world : world :=
  {| subscription := Unreachable;
     getInput := input_of [("config", "bad.yaml")];
     readFile := fun _ => Contents "a: [";
     yaml_load := fun _ =>
       Throw "unexpected end of the stream within a flow collection";
     RegExp_new := Pattern.compile;
     fuel_of := 64 |}.

(** A world whose file is empty, which the parser reads as
    [undefined]. *)
Definition empty_world : world :=
  world_of [("config", "empty.yaml")] "empty.yaml" "" VUndefined.

(** * Properties *)

(** ** Induction on values *)

Section ValueInduction.

Variable P : value -> Prop.
Hypothesis P_undefined : P VUndefined.
Hypothesis P_null : P VNull.
Hypothesis P_bool : forall b, P (VBool b).
Hypothesis P_num : forall z, P (VNum z).
Hypothesis P_str : forall s, P (VStr s).
Hypothesis P_arr : forall l, Forall P l -> P (VArr l).
Hypothesis P_obj :
  forall props, Forall (fun kv => P (snd kv)) props -> P (VObj props).

Fixpoint value_induction (v : value) : P v :=
  match v with
  | VUndefined => P_undefined
  | VNull => P_null
  | VBool b => P_bool b
  | VNum z => P_num z
  | VStr s => P_str s
  | VArr l =>
      P_arr l
        ((fix all (l : list value) : Forall P l :=
            match l with
            | [] => Forall_nil _
            | v :: l' => Forall_cons v (value_induction v) (all l')
            end) l)
  | VObj props =>
      P_obj props
        ((fix all (props : list (string * value))
            : Forall (fun kv => P (snd kv)) props :=
            match props with
            | [] => Forall_nil _
            | kv :: props' =>
                Forall_cons kv (value_induction (snd kv)) (all props')
            end) props)
  end.

End ValueInduction.

(** ** Strings *)

Module StrFacts.

Lemma app_assoc (a b c : string) : ((a ++ b) ++ c = a ++ (b ++ c))%string.
Proof. induction a as [|x a IH]; simpl; [reflexivity | now rewrite IH]. Qed.

Lemma app_nil_r (s : string) : (s ++ "")%string = s.
Proof. induction s as [|x s IH]; simpl; [reflexivity | now rewrite IH]. Qed.

Lemma length_app (a b : string) :
  String.length (a ++ b) = String.length a + String.length b.
Proof. induction a as [|x a IH]; simpl; [reflexivity | now rewrite IH]. Qed.

Lemma app_inv_head (p a b : string) : (p ++ a = p ++ b)%string -> a = b.
Proof.
  induction p as [|x p IH]; simpl; intros H; [exact H |].
  injection H as H. now apply IH.
Qed.

Lemma app_inv_tail (a b c : string) : (a ++ c = b ++ c)%string -> a = b.
Proof.
  revert b; induction a as [|x a IH]; intros [|y b] H; simpl in H.
  - reflexivity.
  - apply (f_equal String.length) in H. simpl in H.
    rewrite length_app in H. lia.
  - apply (f_equal String.length) in H. simpl in H.
    rewrite length_app in H. lia.
  - injection H as -> H. f_equal. now apply IH.
Qed.

Lemma take_drop (n : nat) (s : string) :
  (Str.take n s ++ Str.drop n s)%string = s.
Proof.
  revert s; induction n as [|n IH]; intros [|c s]; simpl; try reflexivity.
  now rewrite IH.
Qed.


Lemma take_0 (s : string) : Str.take 0 s = "".
Proof. now destruct s. Qed.

Lemma drop_all (n : nat) (s : string) :
  String.length s <= n -> Str.drop n s = "".
Proof.
  revert s; induction n as [|n IH]; intros [|c s]; simpl; intros H;
    try reflexivity; try lia.
  apply IH; lia.
Qed.

Lemma take_all (n : nat) (s : string) :
  String.length s <= n -> Str.take n s = s.
Proof.
  revert s; induction n as [|n IH]; intros [|c s]; simpl; intros H;
    try reflexivity; try lia.
  rewrite IH; [reflexivity | lia].
Qed.

Lemma drop_drop (a b : nat) (s : string) :
  Str.drop a (Str.drop b s) = Str.drop (b + a) s.
Proof.
  revert s; induction b as [|b IH]; intros s; simpl.
  - reflexivity.
  - destruct s as [|c s]; simpl; [now destruct a | apply IH].
Qed.

Lemma drop_app_length (p r : string) :
  Str.drop (String.length p) (p ++ r) = r.
Proof. induction p as [|x p IH]; simpl; [reflexivity | exact IH]. Qed.

Lemma take_app_length (p r : string) :
  Str.take (String.length p) (p ++ r) = p.
Proof.
  induction p as [|x p IH]; simpl; [now destruct r | now rewrite IH].
Qed.

Lemma prefix_app (p r : string) : prefix p (p ++ r) = true.
Proof.
  induction p as [|x p IH]; simpl; [now destruct r |].
  destruct (ascii_dec x x) as [_|N]; [exact IH | now elim N].
Qed.

Lemma prefix_split (p s : string) :
  prefix p s = true -> s = (p ++ Str.drop (String.length p) s)%string.
Proof.
  revert s; induction p as [|x p IH]; intros s H; simpl.
  - reflexivity.
  - destruct s as [|c s]; simpl in H; [discriminate |].
    destruct (ascii_dec x c) as [->|]; [|discriminate].
    simpl. f_equal. now apply IH.
Qed.

Lemma get_drop (i : nat) (s : string) (c : ascii) :
  String.get i s = Some c ->
  Str.drop i s = String c (Str.drop (S i) s).
Proof.
  revert s; induction i as [|i IH]; intros [|d s]; simpl; try discriminate.
  - now intros [= ->].
  - intros H. now apply IH.
Qed.

Lemma get_lt (i : nat) (s : string) (c : ascii) :
  String.get i s = Some c -> i < String.length s.
Proof.
  revert s; induction i as [|i IH]; intros [|d s]; simpl; try discriminate.
  - lia.
  - intros H. apply IH in H. lia.
Qed.

Lemma get_none (i : nat) (s : string) :
  String.get i s = None -> String.length s <= i.
Proof.
  revert s; induction i as [|i IH]; intros [|d s]; simpl;
    try discriminate; try lia.
  intros H. apply IH in H. lia.
Qed.

Lemma take_S (n : nat) (s : string) (c : ascii) :
  String.get n s = Some c ->
  Str.take (S n) s = (Str.take n s ++ String c "")%string.
Proof.
  revert s; induction n as [|n IH]; intros [|d s]; simpl; try discriminate.
  - now intros [= ->].
  - intros H. f_equal. now apply IH.
Qed.

Lemma map_app (f : ascii -> ascii) (a b : string) :
  Str.map f (a ++ b) = (Str.map f a ++ Str.map f b)%string.
Proof. induction a as [|x a IH]; simpl; [reflexivity | now rewrite IH]. Qed.

Lemma length_map (f : ascii -> ascii) (s : string) :
  String.length (Str.map f s) = String.length s.
Proof. induction s as [|x s IH]; simpl; [reflexivity | now rewrite IH]. Qed.

(** A decimal numeral starts with a digit. *)
Lemma of_nat_head (n : nat) :
  exists c r, Str.of_nat n = String c r /\ Str.mem c "0123456789" = true.
Proof.
  unfold Str.of_nat.
  assert (N : Nat.to_uint n <> Decimal.Nil).
  { rewrite <- (DecimalNat.Unsigned.of_to n) at 1.
    rewrite DecimalNat.Unsigned.to_of. apply DecimalFacts.unorm_nonnil. }
  destruct (Nat.to_uint n); try (now elim N);
    simpl; eexists; eexists; (split; [reflexivity | reflexivity]).
Qed.

End StrFacts.

(** ** The token pattern *)

Lemma scan_name_sound (r n : string) :
  scan_name r = Some n ->
  Str.mem ")" n = false /\ exists rest, r = (n ++ String ")" rest)%string.
Proof.
  revert n; induction r as [|c r IH]; simpl; intros n H; [discriminate |].
  destruct (Ascii.eqb c ")") eqn:E.
  - injection H as <-. apply Ascii.eqb_eq in E. subst c.
    split; [reflexivity | now exists r].
  - destruct (scan_name r) as [n'|]; [|discriminate].
    injection H as <-. destruct (IH n' eq_refl) as [M [rest ->]].
    split.
    + cbn [Str.mem]. rewrite Ascii.eqb_sym, E. exact M.
    + now exists rest.
Qed.

Lemma scan_name_complete (n rest : string) :
  Str.mem ")" n = false -> scan_name (n ++ String ")" rest) = Some n.
Proof.
  induction n as [|c n IH]; cbn [Str.mem append scan_name]; intros M.
  - reflexivity.
  - apply orb_false_iff in M as [E M].
    rewrite Ascii.eqb_sym, E, (IH M). reflexivity.
Qed.

Lemma token_at_sound (s n : string) :
  token_at s = Some n ->
  n <> "" /\ Str.mem ")" n = false /\ exists rest, s = (token n ++ rest)%string.
Proof.
  unfold token_at, token.
  destruct s as [|c s]; [discriminate |].
  destruct (Ascii.eqb c "$") eqn:Ec;
    [apply Ascii.eqb_eq in Ec; subst c
    | apply Ascii.eqb_neq in Ec;
      destruct c as [[|] [|] [|] [|] [|] [|] [|] [|]];
      try discriminate; now elim Ec].
  destruct s as [|d s]; [discriminate |].
  destruct (Ascii.eqb d "(") eqn:Ed;
    [apply Ascii.eqb_eq in Ed; subst d
    | apply Ascii.eqb_neq in Ed;
      destruct d as [[|] [|] [|] [|] [|] [|] [|] [|]];
      try discriminate; now elim Ed].
  destruct (scan_name s) as [n'|] eqn:E; [|discriminate].
  destruct n' as [|x n']; [discriminate |].
  intros [= <-]. apply scan_name_sound in E as [M [rest ->]].
  split; [discriminate | split; [exact M |]].
  exists rest. simpl. now rewrite StrFacts.app_assoc.
Qed.

Lemma token_at_complete (n rest : string) :
  n <> "" -> Str.mem ")" n = false ->
  token_at (token n ++ rest) = Some n.
Proof.
  intros N M. unfold token. simpl.
  rewrite StrFacts.app_assoc. simpl.
  rewrite (scan_name_complete n rest M).
  destruct n; [now elim N | reflexivity].
Qed.

(** The name [find_token] gives is the capture group of a match of the
    pattern that starts at the index it gives, and no match starts
    before that. *)
Lemma find_token_sound (s : string) (i : nat) (n : string) :
  find_token s = Some (i, n) ->
  token_at (Str.drop i s) = Some n
  /\ i < String.length s
  /\ forall j, j < i -> token_at (Str.drop j s) = None.
Proof.
  revert i; induction s as [|c s IH]; intros i.
  - simpl. discriminate.
  - cbn [find_token]. destruct (token_at (String c s)) as [n0|] eqn:E.
    + intros [= <- <-]. repeat split; [exact E | simpl; lia | intros j Hj; lia].
    + destruct (find_token s) as [[i' n']|] eqn:F; [|discriminate].
      intros [= <- <-]. destruct (IH i' eq_refl) as [A [L B]].
      repeat split; [exact A | simpl; lia |].
      intros [|j] Hj; [exact E | apply B; lia].
Qed.

Lemma find_token_none (s : string) :
  find_token s = None -> forall j, token_at (Str.drop j s) = None.
Proof.
  induction s as [|c s IH]; intros H j.
  - now destruct j.
  - cbn [find_token] in H.
    destruct (token_at (String c s)) eqn:E; [discriminate |].
    destruct (find_token s) as [[i' n']|] eqn:F; [discriminate |].
    destruct j as [|j]; [exact E | apply (IH eq_refl)].
Qed.

Lemma find_token_name (s : string) (i : nat) (n : string) :
  find_token s = Some (i, n) -> n <> "" /\ Str.mem ")" n = false.
Proof.
  intros H. apply find_token_sound in H as [A _].
  apply token_at_sound in A as [N [M _]]. now split.
Qed.

(** A string that starts with a token has it as its leftmost one. *)
Lemma find_token_head (n rest : string) :
  n <> "" -> Str.mem ")" n = false ->
  find_token (token n ++ rest) = Some (0, n).
Proof.
  intros N M. pose proof (token_at_complete n rest N M) as T.
  destruct (token n ++ rest)%string eqn:E; [discriminate |].
  cbn [find_token]. now rewrite T.
Qed.

(** The first occurrence of the text of the leftmost token is the
    token itself, so [replace] rewrites the match [match] found. *)
Lemma indexOf_token (s : string) (i : nat) (n : string) :
  find_token s = Some (i, n) -> Str.indexOf (token n) s = Some i.
Proof.
  intros H. destruct (find_token_name s i n H) as [N M].
  revert i H; induction s as [|c s IH]; intros i; [discriminate |].
  cbn [find_token]. destruct (token_at (String c s)) as [n0|] eqn:E.
  - intros [= <- <-]. apply token_at_sound in E as [_ [_ [rest ->]]].
    destruct (token n0 ++ rest)%string eqn:Es; [discriminate |].
    cbn [Str.indexOf]. rewrite <- Es. now rewrite StrFacts.prefix_app.
  - destruct (find_token s) as [[i' n']|] eqn:F; [|discriminate].
    intros [= <- <-]. cbn [Str.indexOf].
    destruct (prefix (token n') (String c s)) eqn:P.
    + apply StrFacts.prefix_split in P. rewrite P in E.
      now rewrite (token_at_complete n' _ N M) in E.
    + now rewrite (IH i' eq_refl).
Qed.

(** ** The replacement *)

Lemma GetSubstitution_plain (matched before after template : string) :
  Str.mem "$" template = false ->
  GetSubstitution matched before after template = template.
Proof.
  induction template as [|c t IH]; [reflexivity |].
  cbn [Str.mem]. intros M. apply orb_false_iff in M as [E M].
  cbn [GetSubstitution]. rewrite Ascii.eqb_sym, E. now rewrite (IH M).
Qed.

(** With a value free of dollar signs the leftmost token is replaced by
    the text of the value. *)
Lemma String_replace_token (s : string) (i : nat) (n : string) (v : value) :
  find_token s = Some (i, n) ->
  Str.mem "$" (ToString v) = false ->
  String_replace s (token n) v
  = (Str.take i s ++ ToString v
     ++ Str.drop (i + String.length (token n)) s)%string.
Proof.
  intros F D. unfold String_replace.
  rewrite (indexOf_token s i n F). now rewrite GetSubstitution_plain.
Qed.

(** ** The loop of [resolveVariables] *)

Lemma not_defined_inj (a b : string) : not_defined a = not_defined b -> a = b.
Proof.
  unfold not_defined. intros H.
  apply StrFacts.app_inv_head in H. apply StrFacts.app_inv_head in H.
  now apply StrFacts.app_inv_tail in H.
Qed.

(** Reads of the mapping. *)
Lemma get_own (m : obj) (k : string) (v : value) :
  Obj.own m k = Some v -> Obj.get m k = Value v.
Proof. unfold Obj.get. now intros ->. Qed.

Lemma inherited_name_In (k : string) :
  Obj.inherited_name k = true <-> In k ("__proto__" :: Obj.methods).
Proof.
  unfold Obj.inherited_name. rewrite Bool.orb_true_iff, existsb_exists.
  split.
  - intros [E | [x [I E]]].
    + left. symmetry. now apply String.eqb_eq.
    + right. apply String.eqb_eq in E. now subst x.
  - intros [E | I].
    + left. subst k. reflexivity.
    + right. exists k. split; [exact I | apply String.eqb_refl].
Qed.

Lemma inherited_absent (k : string) :
  Obj.inherited_name k = false -> Obj.inherited k = Absent.
Proof.
  unfold Obj.inherited_name, Obj.inherited. intros H.
  apply Bool.orb_false_iff in H. destruct H as [-> ->]. reflexivity.
Qed.

Lemma inherited_defined (k : string) :
  Obj.defined (Obj.inherited k) = Obj.inherited_name k.
Proof.
  unfold Obj.inherited_name, Obj.inherited.
  destruct (String.eqb k "__proto__"); [reflexivity |].
  now destruct (existsb (String.eqb k) Obj.methods).
Qed.

(** A name [Object.prototype] does not define is read from the own
    properties alone. *)
Lemma get_not_inherited (m : obj) (k : string) :
  Obj.inherited_name k = false ->
  Obj.get m k = match Obj.own m k with Some v => Value v | None => Absent end.
Proof.
  intros H. unfold Obj.get. destruct (Obj.own m k); [reflexivity |].
  destruct (proto m); [now apply inherited_absent | reflexivity].
Qed.

(** The names [Object.prototype] defines hold no dot. *)
Lemma inherited_name_dot (k : string) :
  Obj.inherited_name k = true -> Str.mem "." k = false.
Proof.
  intros H. apply inherited_name_In in H. cbn [In Obj.methods] in H.
  repeat (destruct H as [<- | H]; [reflexivity |]). destruct H.
Qed.

Lemma mem_app (c : ascii) (s t : string) :
  Str.mem c (s ++ t) = Str.mem c s || Str.mem c t.
Proof.
  induction s as [|d s IH]; cbn [String.append Str.mem]; [reflexivity |].
  rewrite IH. now destruct (Ascii.eqb c d).
Qed.

Lemma dotted_not_inherited (p k : string) :
  Obj.inherited_name (p ++ "." ++ k) = false.
Proof.
  destruct (Obj.inherited_name (p ++ "." ++ k)) eqn:E; [| reflexivity].
  apply inherited_name_dot in E. rewrite mem_app in E.
  cbn [String.append Str.mem] in E. rewrite Ascii.eqb_refl in E.
  cbn [orb] in E. now rewrite Bool.orb_true_r in E.
Qed.

Lemma not_defined_not_TypeError (ref : string) :
  not_defined ref <> receiver_TypeError.
Proof. discriminate. Qed.

Lemma call_method_throw (name matched e : string) :
  call_method name matched = Throw e -> e = receiver_TypeError.
Proof.
  unfold call_method.
  repeat match goal with |- context [if ?b then _ else _] => destruct b end;
    congruence.
Qed.

Lemma replace_with_throw (s pat : string) (p : property) (e : string) :
  replace_with s pat p = Throw e -> e = receiver_TypeError.
Proof.
  destruct p as [v|name|]; cbn [replace_with]; try discriminate.
  destruct (Str.indexOf pat s); try discriminate.
  destruct (call_method name pat) eqn:C; cbn [rmap]; try discriminate.
  intros [= <-]. exact (call_method_throw _ _ _ C).
Qed.

Lemma replace_with_Hang (s pat : string) (p : property) :
  replace_with s pat p <> Hang.
Proof.
  destruct p as [v|name|]; cbn [replace_with]; try discriminate.
  destruct (Str.indexOf pat s); try discriminate.
  unfold call_method.
  repeat match goal with |- context [if ?b then _ else _] => destruct b end;
    discriminate.
Qed.

(** An exception of the loop names a reference whose read gives nothing
    truthy, or it is the [TypeError] of an inherited function. *)
Lemma resolve_loop_throw (fuel : nat) (current : string) (lookup : obj)
  (e : string) :
  resolve_loop fuel current lookup = Throw e ->
  (exists ref,
     e = not_defined ref /\ Obj.defined (Obj.get lookup ref) = false)
  \/ e = receiver_TypeError.
Proof.
  revert current; induction fuel as [|fuel IH]; intros current;
    cbn [resolve_loop];
    destruct (find_token current) as [[i ref]|]; try discriminate;
    destruct (Obj.defined (Obj.get lookup ref)) eqn:T; cbn [negb];
    try discriminate.
  - intros [= <-]. left. now exists ref.
  - destruct (replace_with current (token ref) (Obj.get lookup ref))
      as [next|e'|] eqn:R; try discriminate.
    + apply IH.
    + intros [= <-]. right. exact (replace_with_throw _ _ _ _ R).
  - intros [= <-]. left. now exists ref.
Qed.

(** The text the loop returns holds no token. *)
Lemma resolve_loop_ok (fuel : nat) (current : string) (lookup : obj)
  (s : string) :
  resolve_loop fuel current lookup = Ok s -> find_token s = None.
Proof.
  revert current; induction fuel as [|fuel IH]; intros current;
    cbn [resolve_loop];
    destruct (find_token current) as [[i ref]|] eqn:F;
    try (intros [= <-]; exact F);
    destruct (Obj.defined (Obj.get lookup ref)); cbn [negb];
    try discriminate.
  destruct (replace_with current (token ref) (Obj.get lookup ref));
    try discriminate.
  apply IH.
Qed.

(** One turn of the loop on a string with a token. *)
Lemma resolve_loop_step (fuel : nat) (current : string) (lookup : obj)
  (i : nat) (ref : string) :
  find_token current = Some (i, ref) ->
  resolve_loop (S fuel) current lookup
  = if Obj.defined (Obj.get lookup ref)
    then match replace_with current (token ref) (Obj.get lookup ref) with
         | Ok next => resolve_loop fuel next lookup
         | Throw e => Throw e
         | Hang => Hang
         end
    else Throw (not_defined ref).
Proof.
  intros F. cbn [resolve_loop]. rewrite F.
  now destruct (Obj.defined (Obj.get lookup ref)).
Qed.

(** One turn of the loop on a token that names an own property. *)
Lemma resolve_loop_own (fuel : nat) (current : string) (lookup : obj)
  (i : nat) (ref : string) (v : value) :
  find_token current = Some (i, ref) ->
  Obj.own lookup ref = Some v ->
  resolve_loop (S fuel) current lookup
  = if truthy v
    then resolve_loop fuel (String_replace current (token ref) v) lookup
    else Throw (not_defined ref).
Proof.
  intros F O. rewrite (resolve_loop_step fuel current lookup i ref F).
  rewrite (get_own _ _ _ O). reflexivity.
Qed.

(** The first reference fails when the read of its name gives nothing
    truthy, whatever the fuel. *)
Lemma resolve_loop_undefined (fuel : nat) (current : string) (lookup : obj)
  (i : nat) (ref : string) :
  find_token current = Some (i, ref) ->
  Obj.defined (Obj.get lookup ref) = false ->
  resolve_loop fuel current lookup = Throw (not_defined ref).
Proof.
  intros F D. destruct fuel; cbn [resolve_loop]; rewrite F, D; reflexivity.
Qed.

Lemma resolveVariables_string (fuel : nat) (s : string) (lookup : obj)
  (v : value) :
  resolveVariables fuel (VStr s) lookup = Ok v ->
  exists t, v = VStr t /\ find_token t = None.
Proof.
  cbn [resolveVariables].
  destruct (resolve_loop fuel s lookup) as [t| |] eqn:R; try discriminate.
  intros [= <-]. exists t. split; [reflexivity |].
  exact (resolve_loop_ok _ _ _ _ R).
Qed.

(** ** Objects *)

Module ObjFacts.

Lemma own_update (m : list (string * value)) (k : string) (v : value) (k' : string) :
  Obj.own m k <> None ->
  Obj.own (Obj.update m k v) k'
  = if String.eqb k' k then Some v else Obj.own m k'.
Proof.
  induction m as [|[k0 v0] m IH]; cbn [Obj.own Obj.update]; intros H.
  - now elim H.
  - destruct (String.eqb k k0) eqn:E.
    + apply String.eqb_eq in E. subst k0. cbn [Obj.own].
      now destruct (String.eqb k' k).
    + cbn [Obj.own]. destruct (String.eqb k' k0) eqn:E'.
      * apply String.eqb_eq in E'. subst k0.
        now rewrite String.eqb_sym, E.
      * now apply IH.
Qed.

Lemma own_insert_index (n : N) (m : list (string * value)) (k : string) (v : value)
  (k' : string) :
  Obj.own m k = None ->
  Obj.own (Obj.insert_index n k v m) k'
  = if String.eqb k' k then Some v else Obj.own m k'.
Proof.
  induction m as [|[k0 v0] m IH]; cbn [Obj.own Obj.insert_index]; intros H.
  - reflexivity.
  - destruct (String.eqb k k0) eqn:E; [discriminate |].
    destruct (Obj.array_index k0) as [n'|]; [destruct (N.ltb n n') |];
      cbn [Obj.own]; try reflexivity.
    destruct (String.eqb k' k0) eqn:E'.
    + apply String.eqb_eq in E'. subst k0.
      now rewrite String.eqb_sym, E.
    + now apply IH.
Qed.

Lemma own_app (m : list (string * value)) (k : string) (v : value) (k' : string) :
  Obj.own m k = None ->
  Obj.own (m ++ [(k, v)]) k'
  = if String.eqb k' k then Some v else Obj.own m k'.
Proof.
  induction m as [|[k0 v0] m IH]; cbn [Obj.own app]; intros H.
  - reflexivity.
  - destruct (String.eqb k k0) eqn:E; [discriminate |].
    destruct (String.eqb k' k0) eqn:E'.
    + apply String.eqb_eq in E'. subst k0.
      now rewrite String.eqb_sym, E.
    + now apply IH.
Qed.

(** Reading after writing. *)
Lemma own_put (m : list (string * value)) (k : string) (v : value)
  (k' : string) :
  Obj.own (Obj.put m k v) k'
  = if String.eqb k' k then Some v else Obj.own m k'.
Proof.
  unfold Obj.put. destruct (Obj.own m k) eqn:O.
  - apply own_update. now rewrite O.
  - destruct (Obj.array_index k).
    + now apply own_insert_index.
    + now apply own_app.
Qed.

Lemma own_In (m : list (string * value)) (k : string) (v : value) :
  Obj.own m k = Some v -> In (k, v) m.
Proof.
  induction m as [|[k0 v0] m IH]; cbn [Obj.own]; [discriminate |].
  destruct (String.eqb k k0) eqn:E.
  - apply String.eqb_eq in E. subst k0. intros [= ->]. now left.
  - intros H. right. now apply IH.
Qed.

Lemma In_update (m : list (string * value)) (k : string) (v : value) (k' : string)
  (v' : value) :
  In (k', v') (Obj.update m k v) -> In (k', v') m \/ (k' = k /\ v' = v).
Proof.
  induction m as [|[k0 v0] m IH]; cbn [Obj.update]; [intros []|].
  destruct (String.eqb k k0) eqn:E.
  - apply String.eqb_eq in E. subst k0. intros [[= <- <-]|H].
    + now right.
    + left. now right.
  - intros [H|H]; [left; now left |].
    destruct (IH H) as [I|I]; [left; now right | now right].
Qed.

Lemma In_insert_index (n : N) (m : list (string * value)) (k : string) (v : value)
  (k' : string) (v' : value) :
  In (k', v') (Obj.insert_index n k v m) ->
  In (k', v') m \/ (k' = k /\ v' = v).
Proof.
  induction m as [|[k0 v0] m IH]; cbn [Obj.insert_index].
  - intros [[= <- <-]|[]]. now right.
  - destruct (Obj.array_index k0) as [n'|]; [destruct (N.ltb n n') |].
    + intros [[= <- <-]|H]; [now right | now left].
    + intros [H|H]; [left; now left |].
      destruct (IH H) as [I|I]; [left; now right | now right].
    + intros [[= <- <-]|H]; [now right | now left].
Qed.

(** An entry of the properties after a write was there before or is the
    one written. *)
Lemma In_put (m : list (string * value)) (k : string) (v : value)
  (k' : string) (v' : value) :
  In (k', v') (Obj.put m k v) -> In (k', v') m \/ (k' = k /\ v' = v).
Proof.
  unfold Obj.put. destruct (Obj.own m k).
  - apply In_update.
  - destruct (Obj.array_index k).
    + apply In_insert_index.
    + intros H. apply in_app_or in H as [H|[[= <- <-]|[]]];
        [now left | now right].
Qed.

(** The cases of an assignment: it puts an own property, or it reaches
    the setter of [__proto__] and leaves the own properties as they
    are. *)
Lemma set_cases (m : obj) (k : string) (v : value) :
  own_properties (Obj.set m k v) = Obj.put m k v
  \/ (k = "__proto__" /\ Obj.own m k = None /\ proto m = ObjectPrototype
      /\ own_properties (Obj.set m k v) = own_properties m).
Proof.
  unfold Obj.set. destruct (String.eqb k "__proto__") eqn:E; [| now left].
  apply String.eqb_eq in E.
  destruct (Obj.own m k) eqn:O; [now left |].
  destruct (proto m) eqn:P; [| now left].
  right. repeat split; try assumption. now destruct v.
Qed.

Lemma set_plain (m : obj) (k : string) (v : value) :
  k <> "__proto__" -> own_properties (Obj.set m k v) = Obj.put m k v.
Proof.
  intros N. unfold Obj.set. apply String.eqb_neq in N. now rewrite N.
Qed.

Lemma own_set (m : obj) (k : string) (v : value) (k' : string) :
  k <> "__proto__" ->
  Obj.own (Obj.set m k v) k'
  = if String.eqb k' k then Some v else Obj.own m k'.
Proof. intros N. rewrite (set_plain m k v N). apply own_put. Qed.

Lemma own_set_same (m : obj) (k : string) (v : value) :
  k <> "__proto__" -> Obj.own (Obj.set m k v) k = Some v.
Proof. intros N. now rewrite own_set, String.eqb_refl. Qed.

(** An assignment leaves the other own properties as they are. *)
Lemma own_set_other (m : obj) (k : string) (v : value) (k' : string) :
  k' <> k -> Obj.own (Obj.set m k v) k' = Obj.own m k'.
Proof.
  intros N. destruct (set_cases m k v) as [-> | (_ & _ & _ & ->)];
    [| reflexivity].
  rewrite own_put. apply String.eqb_neq in N. now rewrite N.
Qed.

(** An entry of the object after an assignment was there before or is
    the one assigned. *)
Lemma In_set (m : obj) (k : string) (v : value) (k' : string) (v' : value) :
  In (k', v') (Obj.set m k v) -> In (k', v') m \/ (k' = k /\ v' = v).
Proof.
  destruct (set_cases m k v) as [-> | (_ & _ & _ & ->)];
    [apply In_put | now left].
Qed.

(** No assignment gives an object without prototype one. *)
Lemma proto_set (m : obj) (k : string) (v : value) :
  proto m = NullPrototype -> proto (Obj.set m k v) = NullPrototype.
Proof.
  intros P. unfold Obj.set. rewrite P.
  destruct (String.eqb k "__proto__"); [| reflexivity].
  now destruct (Obj.own m k).
Qed.

End ObjFacts.

(** ** [traverse] and the flattening *)

Lemma andThen_ret (x : outcome) : andThen x (fun m => ([], Ok m)) = x.
Proof.
  destruct x as [es [m| |]]; cbn [andThen]; try reflexivity.
  now rewrite app_nil_r.
Qed.

Lemma andThen_ext (x : outcome) (f g : obj -> outcome) :
  (forall m, f m = g m) -> andThen x f = andThen x g.
Proof.
  intros H. destruct x as [es [m| |]]; cbn [andThen]; try reflexivity.
  now rewrite H.
Qed.

Lemma andThen_assoc (x : outcome) (f g : obj -> outcome) :
  andThen (andThen x f) g = andThen x (fun m => andThen (f m) g).
Proof.
  destruct x as [es [m| |]]; cbn [andThen]; try reflexivity.
  destruct (f m) as [es' [m'| |]]; cbn [andThen]; try reflexivity.
  destruct (g m') as [es'' r]. now rewrite app_assoc.
Qed.

Lemma andThen_marker (e : event) (x : outcome) (f : obj -> outcome) :
  andThen (let (es, r) := x in (e :: es, r)) f
  = let (es, r) := andThen x f in (e :: es, r).
Proof.
  destruct x as [es [m| |]]; cbn [andThen]; try reflexivity.
  now destruct (f m).
Qed.

Lemma process_app (fuel : nat) (a b : list item) (m : obj) :
  process fuel (a ++ b) m = andThen (process fuel a m) (process fuel b).
Proof.
  revert m; induction a as [|[k val|k val] a IH]; intros m;
    cbn [process app].
  - cbn [andThen]. destruct (process fuel b m) as [es r]. reflexivity.
  - rewrite andThen_assoc. now apply andThen_ext.
  - rewrite IH. now rewrite andThen_marker.
Qed.

Lemma visit_process (fuel : nat) (path key : string) (val : value) (m : obj) :
  (is_container val = true ->
   forall path m, traverse fuel val path m = process fuel (items val path) m) ->
  visit (traverse fuel) fuel path key val m
  = process fuel (visit_items items path key val) m.
Proof.
  intros IH. unfold visit, visit_items.
  destruct val; cbn [is_container isArray process app];
    try (now rewrite andThen_ret).
  - now rewrite (IH eq_refl).
  - rewrite (IH eq_refl). now destruct (process fuel _ m).
Qed.

(** [traverse] handles the items of the node in their order. *)
Lemma traverse_process (fuel : nat) (node : value) :
  node <> VUndefined -> node <> VNull ->
  forall path m, traverse fuel node path m = process fuel (items node path) m.
Proof.
  induction node as [ | | b | z | s | l IH | props IH] using value_induction;
    intros U N path m; try (now elim U); try (now elim N);
    try reflexivity.
  - cbn [traverse items]. clear U N. generalize 0 as i. revert m.
    induction s as [|c s IHs]; intros m i;
      cbn [chars store_leaves map process fst snd].
    + reflexivity.
    + apply andThen_ext. intros m'. apply IHs.
  - cbn [traverse items]. clear U N. generalize 0 as i. revert m.
    induction IH as [|val l Hval _ IHl]; intros m i; [reflexivity |].
    rewrite process_app. rewrite visit_process.
    + apply andThen_ext. intros m'. apply IHl.
    + intros C. apply Hval; now destruct val.
  - cbn [traverse items]. clear U N. revert m.
    induction IH as [|[key val] props Hval _ IHl]; intros m; [reflexivity |].
    rewrite process_app. rewrite visit_process.
    + apply andThen_ext. intros m'. apply IHl.
    + intros C. cbn [snd] in Hval. apply Hval; now destruct val.
Qed.

(** A leaf among the items is no container, and a marker is a
    sequence. *)
Lemma items_shape (node : value) (path : string) :
  Forall (fun it =>
            match it with
            | Leaf _ val => is_container val = false
            | Marker _ val => exists l, val = VArr l
            end) (items node path).
Proof.
  revert path.
  induction node as [ | | b | z | s | l IH | props IH] using value_induction;
    intros path; cbn [items]; try constructor.
  - generalize 0 as i. induction s as [|c s IHs]; intros i; cbn [chars map];
      constructor; [reflexivity | apply IHs].
  - generalize 0 as i.
    induction IH as [|val l Hval _ IHl]; intros i; [constructor |].
    apply Forall_app. split; [|apply IHl].
    unfold visit_items. destruct val;
      try (constructor; [reflexivity | constructor]).
    + constructor; [now eexists | apply Hval].
    + apply Hval.
  - induction IH as [|[key val] props Hval _ IHl]; [constructor |].
    apply Forall_app. split; [|apply IHl].
    cbn [snd] in Hval. unfold visit_items. destruct val;
      try (constructor; [reflexivity | constructor]).
    + constructor; [now eexists | apply Hval].
    + apply Hval.
Qed.

Lemma leaf_keys_app (a b : list item) :
  leaf_keys (a ++ b) = leaf_keys a ++ leaf_keys b.
Proof.
  induction a as [|[k val|k val] a IH]; cbn [leaf_keys app];
    [reflexivity | now rewrite IH | exact IH].
Qed.

Lemma leaf_keys_In (its : list item) (k : string) :
  In k (leaf_keys its) <-> exists val, In (Leaf k val) its.
Proof.
  induction its as [|[k0 val0|k0 val0] its IH]; cbn [leaf_keys In].
  - split; [intros [] | intros [_ []]].
  - rewrite IH. split.
    + intros [->|[val H]]; [exists val0; now left | exists val; now right].
    + intros [val [[= -> _]|H]]; [now left | right; now exists val].
  - rewrite IH. split.
    + intros [val H]. exists val. now right.
    + intros [val [H|H]]; [discriminate | now exists val].
Qed.

(** Handling items leaves alone the names that are no flat key of one
    of their leaves. *)
Lemma process_frame (fuel : nat) (its : list item) (m : obj)
  (es : list event) (m' : obj) (k : string) :
  process fuel its m = (es, Ok m') ->
  ~ In k (leaf_keys its) ->
  Obj.own m' k = Obj.own m k.
Proof.
  revert m es; induction its as [|[k0 val|k0 val] its IH]; intros m es;
    cbn [process leaf_keys].
  - now intros [= _ <-].
  - unfold store_leaf.
    destruct (resolveVariables fuel val m) as [v| |]; cbn [rmap andThen];
      try discriminate.
    destruct (process fuel its (Obj.set m k0 v)) as [es' r] eqn:E.
    intros [= _ ->] N. cbn [In] in N.
    rewrite (IH _ _ E) by tauto.
    apply ObjFacts.own_set_other. intros ->. tauto.
  - destruct (process fuel its m) as [es' r] eqn:E.
    intros [= _ ->] N. now apply (IH _ _ E).
Qed.

(** An entry of the mapping after the items were handled was there
    before, or it holds what [resolveVariables] returned for a leaf
    with that flat key. *)
Lemma process_stored (fuel : nat) (its : list item) (m : obj)
  (es : list event) (m' : obj) (k : string) (v : value) :
  process fuel its m = (es, Ok m') ->
  In (k, v) m' ->
  In (k, v) m
  \/ exists val lookup,
       In (Leaf k val) its /\ resolveVariables fuel val lookup = Ok v.
Proof.
  revert m es; induction its as [|[k0 val|k0 val] its IH]; intros m es;
    cbn [process].
  - intros [= _ <-] H. now left.
  - unfold store_leaf.
    destruct (resolveVariables fuel val m) as [v0| |] eqn:R;
      cbn [rmap andThen]; try discriminate.
    destruct (process fuel its (Obj.set m k0 v0)) as [es' r] eqn:E.
    intros [= _ ->] H.
    destruct (IH _ _ E H) as [I|[val' [lk [I R']]]].
    + apply ObjFacts.In_set in I as [I|[-> ->]]; [now left |].
      right. exists val, m. split; [now left | exact R].
    + right. exists val', lk. split; [now right | exact R'].
  - destruct (process fuel its m) as [es' r] eqn:E.
    intros [= _ ->] H.
    destruct (IH _ _ E H) as [I|[val' [lk [I R']]]]; [now left |].
    right. exists val', lk. split; [now right | exact R'].
Qed.

(** The events of the flattening announce the sequences, nothing
    else. *)
Lemma process_events (fuel : nat) (its : list item) (m : obj) (e : event) :
  In e (fst (process fuel its m)) ->
  exists fullKey val,
    In (Marker fullKey val) its /\ e = SetOutput (fullKey ++ ".array") val.
Proof.
  revert m; induction its as [|[k0 val|k0 val] its IH]; intros m;
    cbn [process].
  - intros [].
  - unfold store_leaf.
    destruct (resolveVariables fuel val m) as [v0| |];
      cbn [rmap andThen fst]; try (intros []).
    destruct (process fuel its (Obj.set m k0 v0)) as [es' r] eqn:E.
    cbn [fst app]. intros H.
    specialize (IH (Obj.set m k0 v0)). rewrite E in IH.
    destruct (IH H) as [fk [vl [I ->]]].
    exists fk, vl. split; [now right | reflexivity].
  - destruct (process fuel its m) as [es' r] eqn:E. cbn [fst].
    intros [<-|H].
    + exists k0, val. split; [now left | reflexivity].
    + specialize (IH m). rewrite E in IH.
      destruct (IH H) as [fk [vl [I ->]]].
      exists fk, vl. split; [now right | reflexivity].
Qed.

(** What [resolveVariables] returns for an array or an object is an
    object. *)
Lemma resolveVariables_container (fuel : nat) (input : value) (lookup : obj)
  (v : value) :
  is_container input = true ->
  resolveVariables fuel input lookup = Ok v -> exists o, v = VObj o.
Proof.
  destruct input as [ | | b | z | s | l | props]; try discriminate;
    intros _; cbn [resolveVariables].
  - generalize 0 as i. generalize (literal []) as res.
    induction l as [|x l IH]; intros res i.
    + intros [= <-]. now exists res.
    + destruct (resolveVariables fuel x lookup); try discriminate.
      apply IH.
  - generalize (literal []) as res.
    induction props as [|[key x] props IH]; intros res.
    + intros [= <-]. now exists res.
    + destruct (resolveVariables fuel x lookup); try discriminate.
      apply IH.
Qed.

(** A string that [resolveVariables] returns comes from a string and
    holds no token. *)
Lemma resolveVariables_gives_string (fuel : nat) (input : value)
  (lookup : obj) (s : string) :
  resolveVariables fuel input lookup = Ok (VStr s) ->
  is_string input = true /\ find_token s = None.
Proof.
  destruct input as [ | | b | z | s0 | l | props]; try discriminate.
  - intros H. apply resolveVariables_string in H as [t [[= ->] F]].
    now split.
  - intros H. apply resolveVariables_container in H as [o H];
      [discriminate | reflexivity].
  - intros H. apply resolveVariables_container in H as [o H];
      [discriminate | reflexivity].
Qed.

(** A reference to a name that no earlier leaf has as its flat key and
    that [Object.prototype] does not define stops the traversal: the
    leaves before it are handled, then the exception is thrown. *)
Lemma process_forward (fuel : nat) (pre post : list item) (key s : string)
  (m : obj) (i : nat) (name : string) :
  find_token s = Some (i, name) ->
  Obj.inherited_name name = false ->
  Obj.own m name = None ->
  ~ In name (leaf_keys pre) ->
  process fuel (pre ++ Leaf key (VStr s) :: post) m
  = match process fuel pre m with
    | (es, Ok _) => (es, Throw (not_defined name))
    | failed => failed
    end.
Proof.
  intros F I O N. rewrite process_app.
  destruct (process fuel pre m) as [es [m1| |]] eqn:E; cbn [andThen];
    try reflexivity.
  cbn [process]. unfold store_leaf. cbn [resolveVariables].
  assert (G : Obj.get m1 name = Absent).
  { rewrite (get_not_inherited _ _ I).
    now rewrite (process_frame _ _ _ _ _ name E N), O. }
  assert (R : resolve_loop fuel s m1 = Throw (not_defined name)).
  { apply (resolve_loop_undefined fuel s m1 i name F). now rewrite G. }
  rewrite R. cbn [rmap andThen]. now rewrite app_nil_r.
Qed.

(** Flat keys extend the path they were built under. *)
Lemma items_keys (node : value) (path k : string) :
  In k (leaf_keys (items node path)) ->
  exists key rest,
    k = (full_key path key ++ rest)%string
    /\ forall l, node = VArr l -> exists i, key = Str.of_nat i.
Proof.
  revert path.
  assert (V : forall val path key,
             (forall path, In k (leaf_keys (items val path)) ->
                exists key rest,
                  k = (full_key path key ++ rest)%string
                  /\ forall l, val = VArr l -> exists i, key = Str.of_nat i) ->
             In k (leaf_keys (visit_items items path key val)) ->
             exists rest, k = (full_key path key ++ rest)%string).
  { intros val path key IH. unfold visit_items.
    assert (D : In k (leaf_keys (items val (full_key path key))) ->
                exists rest, k = (full_key path key ++ rest)%string).
    { intros H. destruct (IH _ H) as [key' [rest [-> _]]].
      unfold full_key at 1.
      destruct (String.eqb (full_key path key) "") eqn:E.
      - apply String.eqb_eq in E. rewrite E. now eexists.
      - exists ("." ++ key' ++ rest)%string.
        now rewrite !StrFacts.app_assoc. }
    destruct val; cbn [leaf_keys In]; try exact D;
      intros [<-|[]]; exists ""; now rewrite StrFacts.app_nil_r. }
  induction node as [ | | b | z | s | l IH | props IH] using value_induction;
    intros path; cbn [items leaf_keys]; try (intros []).
  - generalize 0 as i. induction s as [|c s IHs]; intros i;
      cbn [chars map leaf_keys fst snd In]; [intros [] |].
    intros [<-|H].
    + exists (Str.of_nat i), "". split; [now rewrite StrFacts.app_nil_r |].
      discriminate.
    + destruct (IHs (S i) H) as [key [rest [-> _]]].
      exists key, rest. split; [reflexivity | discriminate].
  - generalize 0 as i.
    induction IH as [|val l Hval _ IHl]; intros i; [intros [] |].
    rewrite leaf_keys_app. intros H. apply in_app_or in H as [H|H].
    + destruct (V val path (Str.of_nat i) Hval H) as [rest ->].
      exists (Str.of_nat i), rest. split; [reflexivity |].
      intros _ _. now exists i.
    + destruct (IHl (S i) H) as [key [rest [-> K]]].
      exists key, rest. split; [reflexivity |].
      intros l0 _. now apply (K l).
  - induction IH as [|[key val] props Hval _ IHl]; [intros [] |].
    rewrite leaf_keys_app. intros H. apply in_app_or in H as [H|H].
    + destruct (V val path key Hval H) as [rest ->].
      exists key, rest. split; [reflexivity | discriminate].
    + destruct (IHl H) as [key' [rest [-> K]]].
      exists key', rest. split; [reflexivity | discriminate].
Qed.

(** No leaf below the sequence at [path] has the name under which the
    sequence is announced. *)
Lemma items_array_keys (l : list value) (path : string) :
  ~ In (path ++ ".array")%string (leaf_keys (items (VArr l) path)).
Proof.
  intros H. apply items_keys in H as [key [rest [E K]]].
  destruct (K l eq_refl) as [i ->].
  destruct (StrFacts.of_nat_head i) as [c [r [Hc D]]].
  unfold full_key in E. rewrite Hc in E.
  destruct (String.eqb path "") eqn:P.
  - apply String.eqb_eq in P. subst path. cbn in E.
    injection E as <- _. discriminate.
  - rewrite !StrFacts.app_assoc in E. apply StrFacts.app_inv_head in E.
    cbn in E. injection E as <- _. discriminate.
Qed.

(** ** Searching and replacing *)

Lemma search_some (m : matcher) (s : string) (n i j e : nat) :
  search m s n i = Some (j, e) ->
  i <= j < i + n /\ m s j = Some e
  /\ forall j', i <= j' < j -> m s j' = None.
Proof.
  revert i; induction n as [|n IH]; intros i; cbn [search]; [discriminate |].
  destruct (m s i) as [e0|] eqn:E.
  - intros [= <- <-]. split; [lia | split; [exact E | intros j' Hj; lia]].
  - intros H. destruct (IH _ H) as [B [M L]].
    split; [lia | split; [exact M |]].
    intros j' Hj. destruct (Nat.eq_dec j' i) as [->|D]; [exact E |].
    apply L. lia.
Qed.

Lemma search_none (m : matcher) (s : string) (n i : nat) :
  search m s n i = None -> forall j, i <= j < i + n -> m s j = None.
Proof.
  revert i; induction n as [|n IH]; intros i; cbn [search]; [intros _ j Hj; lia |].
  destruct (m s i) as [e0|] eqn:E; [discriminate |].
  intros H j Hj. destruct (Nat.eq_dec j i) as [->|D]; [exact E |].
  apply (IH _ H). lia.
Qed.

Lemma search_from_some (m : matcher) (s : string) (from j e : nat) :
  search_from m s from = Some (j, e) ->
  from <= j <= String.length s /\ m s j = Some e
  /\ forall j', from <= j' < j -> m s j' = None.
Proof.
  unfold search_from. intros H. apply search_some in H as [B [M L]].
  split; [lia | split; assumption].
Qed.

Lemma search_from_none (m : matcher) (s : string) (from : nat) :
  search_from m s from = None ->
  forall j, from <= j <= String.length s -> m s j = None.
Proof.
  unfold search_from. intros H j Hj. apply (search_none _ _ _ _ H). lia.
Qed.

(** The loop of [replace] removes the spans of the matches. *)
Lemma replace_loop_spans (m : matcher) (s : string) :
  wf_matcher m ->
  forall fuel from next,
    next <= from ->
    replace_loop fuel m s "" from next
    = without_spans (match_spans fuel m s from) s next.
Proof.
  intros W. induction fuel as [|fuel IH]; intros from next L;
    cbn [replace_loop match_spans without_spans]; [reflexivity |].
  destruct (search_from m s from) as [[i e]|] eqn:E;
    cbn [without_spans]; [|reflexivity].
  pose proof (search_from_some _ _ _ _ _ E) as [B [M _]].
  assert (We : i <= e <= String.length s) by (apply (W _ _ _ (proj2 B) M)).
  assert (Ln : Nat.leb next i = true) by (apply Nat.leb_le; lia).
  rewrite Ln. cbn [append].
  replace (i + (e - i)) with e by lia.
  rewrite IH; [reflexivity |].
  destruct (Nat.leb e i); lia.
Qed.

(** The fuel [replace] is run with lets the loop find every match. *)
Lemma match_spans_fuel (m : matcher) (s : string) :
  wf_matcher m ->
  forall fuel fuel' from,
    String.length s + 2 - from <= fuel ->
    String.length s + 2 - from <= fuel' ->
    match_spans fuel m s from = match_spans fuel' m s from.
Proof.
  intros W.
  assert (Z : forall fuel from, String.length s + 2 - from <= 0 ->
                match_spans fuel m s from = []).
  { intros [|fuel] from L; cbn [match_spans]; [reflexivity |].
    unfold search_from. replace (S (String.length s) - from) with 0 by lia.
    reflexivity. }
  induction fuel as [|fuel IH]; intros fuel' from L L'.
  - rewrite (Z fuel' from L). reflexivity.
  - destruct fuel' as [|fuel'].
    + now rewrite (Z (S fuel) from L').
    + cbn [match_spans].
      destruct (search_from m s from) as [[i e]|] eqn:E; [|reflexivity].
      pose proof (search_from_some _ _ _ _ _ E) as [B [M _]].
      assert (We : i <= e <= String.length s)
        by (apply (W _ _ _ (proj2 B) M)).
      f_equal. apply IH; destruct (Nat.leb e i) eqn:C;
        try apply Nat.leb_le in C; try apply Nat.leb_gt in C; lia.
Qed.

(** *** The character class of [envNameCleaner] *)

Lemma class_matcher_some (cls s : string) (i e : nat) :
  class_matcher cls s i = Some e ->
  e = S i /\ exists c, String.get i s = Some c /\ Str.mem c cls = true.
Proof.
  unfold class_matcher. destruct (String.get i s) as [c|]; [|discriminate].
  destruct (Str.mem c cls) eqn:M; [|discriminate].
  intros [= <-]. split; [reflexivity | now exists c].
Qed.

Lemma class_matcher_wf (cls : string) : wf_matcher (class_matcher cls).
Proof.
  intros s i e _ H. apply class_matcher_some in H as [-> [c [G _]]].
  apply StrFacts.get_lt in G. lia.
Qed.

Section ClassReplace.

Variable cls : string.
Variable r : ascii.

(** Up to the next member of the class the text is left as it is. *)
Lemma map_until (s : string) (d k : nat) :
  k + d <= String.length s ->
  (forall j, k <= j < k + d -> class_matcher cls s j = None) ->
  Str.map (swap cls r) (Str.drop k s)
  = (Str.take d (Str.drop k s) ++ Str.map (swap cls r) (Str.drop (k + d) s))%string.
Proof.
  revert k; induction d as [|d IH]; intros k L N.
  - rewrite Nat.add_0_r. now rewrite StrFacts.take_0.
  - destruct (String.get k s) as [c|] eqn:G;
      [|apply StrFacts.get_none in G; lia].
    assert (M : Str.mem c cls = false).
    { specialize (N k). unfold class_matcher in N. rewrite G in N.
      destruct (Str.mem c cls); [|reflexivity].
      discriminate N. lia. }
    rewrite (StrFacts.get_drop _ _ _ G). cbn [Str.map Str.take append].
    unfold swap at 1. rewrite M. f_equal.
    replace (k + S d) with (S k + d) by lia.
    apply IH; [lia |]. intros j Hj. apply N. lia.
Qed.

Lemma replace_loop_class (s : string) :
  forall fuel k,
    k <= String.length s ->
    String.length s + 2 - k <= fuel ->
    replace_loop fuel (class_matcher cls) s (String r "") k k
    = Str.map (swap cls r) (Str.drop k s).
Proof.
  induction fuel as [|fuel IH]; intros k L F; [lia |].
  cbn [replace_loop].
  destruct (search_from (class_matcher cls) s k) as [[j e]|] eqn:E.
  - pose proof (search_from_some _ _ _ _ _ E) as [B [M N]].
    apply class_matcher_some in M as [-> [c [G C]]].
    pose proof (StrFacts.get_lt _ _ _ G) as Lj.
    assert (Le : Nat.leb (S j) j = false) by (apply Nat.leb_gt; lia).
    assert (Lk : Nat.leb k j = true) by (apply Nat.leb_le; lia).
    rewrite Le, Lk. replace (j + (S j - j)) with (S j) by lia.
    rewrite IH by lia.
    rewrite (map_until s (j - k) k) by
      (try lia; intros j' Hj; apply N; lia).
    replace (k + (j - k)) with j by lia.
    rewrite (StrFacts.get_drop _ _ _ G). cbn [Str.map append].
    unfold swap at 2. now rewrite C.
  - pose proof (search_from_none _ _ _ E) as N.
    rewrite (map_until s (String.length s - k) k) by
      (try lia; intros j' Hj; apply N; lia).
    replace (k + (String.length s - k)) with (String.length s) by lia.
    rewrite (StrFacts.drop_all (String.length s) s) by lia.
    cbn [Str.map]. rewrite StrFacts.app_nil_r.
    rewrite StrFacts.take_all; [reflexivity |].
    rewrite <- (StrFacts.take_drop k s) at 2.
    rewrite StrFacts.length_app.
    assert (String.length (Str.take k s) = k).
    { clear - L. revert s L. induction k as [|k IHk]; intros [|c s] L;
        cbn in *; try lia. rewrite IHk; lia. }
    lia.
Qed.

End ClassReplace.

(** [outputKey.replace(envNameCleaner, "_")] puts an underscore for
    every dot and every hyphen and keeps the other characters. *)
Lemma env_name_clean (envPrefix outputKey : string) :
  env_name envPrefix outputKey
  = (envPrefix ++ "_" ++ Str.map underscore outputKey)%string.
Proof.
  unfold env_name, String_replace_all, envNameCleaner. cbn [fst matcher_of].
  rewrite (replace_loop_class ".-" "_"%char outputKey) by lia.
  cbn [Str.drop]. do 2 f_equal.
  induction outputKey as [|c s IH]; [reflexivity |].
  cbn [Str.map]. rewrite <- IH. f_equal.
  unfold underscore, swap. cbn [Str.mem]. now rewrite orb_false_r.
Qed.

(** ** Undefined references *)


(** The reference the scan finds first is the one the error names, and
    it is thrown when the read of the name gives nothing truthy. *)
Lemma first_reference_throws_iff (fuel : nat) (current : string)
  (lookup : obj) (i : nat) (name : string) :
  find_token current = Some (i, name) ->
  resolveVariables fuel (VStr current) lookup = Throw (not_defined name)
  <-> Obj.defined (Obj.get lookup name) = false.
Proof.
  intros F. split.
  - cbn [resolveVariables].
    destruct (resolve_loop fuel current lookup) as [t|e|] eqn:R;
      cbn [rmap]; try discriminate.
    intros [= ->]. apply resolve_loop_throw in R as [[ref [E T]] | E].
    + apply not_defined_inj in E. now subst ref.
    + now elim (not_defined_not_TypeError name).
  - intros T. cbn [resolveVariables].
    now rewrite (resolve_loop_undefined fuel current lookup i name F T).
Qed.

(** For a name that [Object.prototype] does not define the read is one
    of the own properties: the error is thrown exactly when the mapping
    has no entry for the name or a falsy one. *)
Lemma own_reference_throws_iff (fuel : nat) (current : string)
  (lookup : obj) (i : nat) (name : string) :
  find_token current = Some (i, name) ->
  Obj.inherited_name name = false ->
  resolveVariables fuel (VStr current) lookup = Throw (not_defined name)
  <-> Obj.own lookup name = None
      \/ exists v, Obj.own lookup name = Some v /\ truthy v = false.
Proof.
  intros F I. rewrite (first_reference_throws_iff fuel current lookup i name F).
  rewrite (get_not_inherited lookup name I).
  destruct (Obj.own lookup name) as [v|]; cbn [Obj.defined].
  - split.
    + intros T. right. now exists v.
    + intros [H | [v' [[= <-] T]]]; [discriminate | exact T].
  - split; [now left | reflexivity].
Qed.

(** The loop on [$(constructor)] and a mapping without such an entry:
    the function [Object] gives the token back, so that every turn
    starts from the same text. *)
Lemma constructor_loops (fuel : nat) (lookup : list (string * value)) :
  Obj.own lookup "constructor" = None ->
  resolve_loop fuel "$(constructor)" lookup = Hang.
Proof.
  intros O. induction fuel as [|fuel IH]; cbn [resolve_loop].
  - change (find_token "$(constructor)") with (Some (0, "constructor")).
    unfold Obj.get. cbn [own_properties proto literal]. now rewrite O.
  - change (find_token "$(constructor)") with (Some (0, "constructor")).
    unfold Obj.get. cbn [own_properties proto literal]. rewrite O.
    exact IH.
Qed.

(** C5: the check [if (!lookup[ref])] reads the name through the
    prototype chain of the mapping, so the names [Object.prototype]
    defines count as defined though the mapping has no entry for them:
    with a mapping that holds the key [a] only, [$(toString)] resolves
    to [[object Undefined]] and [$(__proto__)] to [[object Object]],
    [$(valueOf)] ends in a [TypeError] that names no variable, and
    [$(constructor)] is replaced by itself in every turn, so that the
    loop never ends; in none of these cases the error [Variable ... is
    not defined] is thrown.  The name [missing], which nothing defines,
    gives the error. *)
Theorem inherited_names_count_as_defined (fuel : nat) :
  let lookup := literal [("a", VStr "x")] in
  Obj.own lookup "toString" = None
  /\ Obj.own lookup "__proto__" = None
  /\ Obj.own lookup "valueOf" = None
  /\ Obj.own lookup "constructor" = None
  /\ resolveVariables (S fuel) (VStr "$(toString)") lookup
     = Ok (VStr "[object Undefined]")
  /\ resolveVariables (S fuel) (VStr "$(__proto__)") lookup
     = Ok (VStr "[object Object]")
  /\ resolveVariables (S fuel) (VStr "$(valueOf)") lookup
     = Throw receiver_TypeError
  /\ resolveVariables fuel (VStr "$(constructor)") lookup = Hang
  /\ resolveVariables fuel (VStr "$(missing)") lookup
     = Throw (not_defined "missing").
Proof.
  cbv zeta. repeat split; try reflexivity; try (now destruct fuel).
  cbn [resolveVariables]. now rewrite constructor_loops.
Qed.

(** ** Substitution *)

(** The chain of the specification and the leaf with two tokens. *)
Example chained_references :
  traverse 8
    (VObj [("a", VStr "x"); ("b", VStr "$(a)y"); ("c", VStr "$(b)z");
           ("d", VStr "$(a)-$(b)")]) "" []
  = ([], Ok [("a", VStr "x"); ("b", VStr "xy"); ("c", VStr "xyz");
             ("d", VStr "x-xy")]).
Proof. reflexivity. Qed.

(** One turn of the loop with a value free of dollar signs: the token
    is replaced by the value and the scan starts again. *)
Lemma resolve_loop_plain (fuel : nat) (current : string) (lookup : obj)
  (i : nat) (name : string) (v : value) :
  find_token current = Some (i, name) ->
  Obj.own lookup name = Some v -> truthy v = true ->
  Str.mem "$" (ToString v) = false ->
  resolve_loop (S fuel) current lookup
  = resolve_loop fuel
      (Str.take i current ++ ToString v
       ++ Str.drop (i + String.length (token name)) current)%string lookup.
Proof.
  intros F O T D. rewrite (resolve_loop_own _ _ _ _ _ _ F O), T.
  now rewrite (String_replace_token _ _ _ _ F D).
Qed.

Lemma GetSubstitution_matched (matched before after : string) :
  GetSubstitution matched before after "$&" = matched.
Proof. cbn. apply StrFacts.app_nil_r. Qed.

(** C4: the token is replaced through [String.prototype.replace], which
    reads the value as a replacement pattern.  For the document
    [{a: "$$", b: "$(a)"}] the leaf [b] resolves to ["$"] and not to the
    value ["$$"] of [a]; for [{a: "$&", b: "$(a)"}] every turn of the
    loop puts the token back, so that the loop never ends. *)
Theorem replacement_patterns_are_interpreted :
  traverse 8 (VObj [("a", VStr "$$"); ("b", VStr "$(a)")]) "" []
  = ([], Ok [("a", VStr "$$"); ("b", VStr "$")])
  /\ forall fuel,
       traverse fuel (VObj [("a", VStr "$&"); ("b", VStr "$(a)")]) "" []
       = ([], Hang).
Proof.
  split; [reflexivity |].
  assert (L : forall fuel,
             resolve_loop fuel "$(a)" [("a", VStr "$&")] = Hang).
  { induction fuel as [|fuel IH]; [reflexivity |].
    rewrite (resolve_loop_own fuel "$(a)" (literal [("a", VStr "$&")]) 0 "a"
               (VStr "$&") eq_refl eq_refl).
    replace (truthy (VStr "$&")) with true by reflexivity.
    replace (String_replace "$(a)" (token "a") (VStr "$&")) with "$(a)"
      by reflexivity.
    exact IH. }
  intros fuel.
  cbn [traverse andThen visit full_key String.eqb store_leaf is_container].
  replace (resolveVariables fuel (VStr "$&") []) with (@Ok value (VStr "$&"))
    by (destruct fuel; reflexivity).
  cbn [rmap resolveVariables].
  replace (Obj.set [] "a" (VStr "$&")) with (literal [("a", VStr "$&")])
    by reflexivity.
  rewrite (L fuel). reflexivity.
Qed.

(** ** The order of resolution *)

(** Every string the traversal stores holds no token any more, so an
    entry exists only once its value is resolved. *)
Lemma stored_strings_are_resolved (fuel : nat) (doc : value)
  (es : list event) (m : obj) (k s : string) :
  doc <> VUndefined -> doc <> VNull ->
  traverse fuel doc "" [] = (es, Ok m) ->
  In (k, VStr s) m -> find_token s = None.
Proof.
  intros U N T I. rewrite (traverse_process fuel doc U N) in T.
  destruct (process_stored _ _ _ _ _ _ _ T I) as [[]|[val [lk [_ R]]]].
  now apply resolveVariables_gives_string in R.
Qed.

(** A reference to a name that is the flat key of no leaf met before
    and that [Object.prototype] does not define stops the traversal
    with the error for that name once those leaves are handled. *)
Theorem forward_reference_fails (fuel : nat) (doc : value)
  (pre post : list item) (key s : string) (i : nat) (name : string) :
  doc <> VUndefined -> doc <> VNull ->
  items doc "" = pre ++ Leaf key (VStr s) :: post ->
  find_token s = Some (i, name) ->
  Obj.inherited_name name = false ->
  ~ In name (leaf_keys pre) ->
  traverse fuel doc "" []
  = match process fuel pre [] with
    | (es, Ok _) => (es, Throw (not_defined name))
    | failed => failed
    end.
Proof.
  intros U N E F I NI. rewrite (traverse_process fuel doc U N), E.
  now apply (process_forward fuel pre post key s [] i name).
Qed.

(** The leaf [b] refers to [c], which is flattened after it. *)
Lemma forward_reference_fails_witness :
  items (VObj [("a", VStr "1"); ("b", VStr "$(c)"); ("c", VStr "2")]) ""
  = [Leaf "a" (VStr "1")] ++ Leaf "b" (VStr "$(c)") :: [Leaf "c" (VStr "2")]
  /\ ~ In "c" (leaf_keys [Leaf "a" (VStr "1")])
  /\ traverse 4
       (VObj [("a", VStr "1"); ("b", VStr "$(c)"); ("c", VStr "2")]) "" []
     = ([], Throw (not_defined "c")).
Proof.
  assert (NI : ~ In "c" (leaf_keys [Leaf "a" (VStr "1")])).
  { intros [H|[]]. discriminate H. }
  split; [reflexivity | split; [exact NI |]].
  refine (forward_reference_fails 4
            (VObj [("a", VStr "1"); ("b", VStr "$(c)"); ("c", VStr "2")])
            [Leaf "a" (VStr "1")] [Leaf "c" (VStr "2")] "b" "$(c)" 0 "c"
            _ _ eq_refl eq_refl eq_refl NI); discriminate.
Defined.

(** C6: the leaf is resolved by reads of [resolvedValues], an object
    with [Object.prototype] behind it, so a reference is not confined
    to the keys flattened earlier: in [{b: "$(__proto__)"}] the leaf
    [b] refers to a name that is the flat key of no leaf and resolves
    to [[object Object]]; in [{b: "$(toString)2", toString: "1"}] it
    refers to a key that is flattened after it and resolves to text of
    the runtime instead of failing.  The forward reference of
    [{b: "$(a)2", a: "1"}] fails with the error for [a]. *)
Theorem inherited_names_are_no_forward_references (fuel : nat) :
  leaf_keys (items (VObj [("b", VStr "$(__proto__)")]) "") = ["b"]
  /\ traverse (S fuel) (VObj [("b", VStr "$(__proto__)")]) "" []
     = ([], Ok [("b", VStr "[object Object]")])
  /\ leaf_keys
       (items (VObj [("b", VStr "$(toString)2"); ("toString", VStr "1")]) "")
     = ["b"; "toString"]
  /\ traverse (S fuel)
       (VObj [("b", VStr "$(toString)2"); ("toString", VStr "1")]) "" []
     = ([], Ok [("b", VStr "[object Undefined]2"); ("toString", VStr "1")])
  /\ traverse fuel (VObj [("b", VStr "$(a)2"); ("a", VStr "1")]) "" []
     = ([], Throw (not_defined "a")).
Proof.
  repeat split; try (now destruct fuel).
Qed.

(** ** Documents of the failsafe schema *)





(** ** The publication loop *)

Lemma publish_entry_events (envPrefix outputKey : string) (v : value)
  (e : event) :
  In e (publish_entry envPrefix outputKey v) ->
  e = LogInfo (outputKey ++ " : " ++ ToString v)
  \/ e = SetOutput outputKey v
  \/ envPrefix <> ""
     /\ (e = LogInfo (env_name envPrefix outputKey ++ "=" ++ ToString v)
         \/ e = ExportVariable (env_name envPrefix outputKey) v).
Proof.
  unfold publish_entry. destruct (String.eqb envPrefix "") eqn:E; cbn.
  - intros [<-|[<-|[]]]; tauto.
  - apply String.eqb_neq in E. intros [<-|[<-|[<-|[<-|[]]]]]; tauto.
Qed.

(** An event of the loop belongs to what the loop body publishes for
    an entry of the mapping it included. *)
Lemma publish_events (patternRegex : option RegExp) (envPrefix : string)
  (entries : list (string * value)) (e : event) :
  In e (publish patternRegex envPrefix entries) ->
  exists fullKey outputKey v,
    In (fullKey, v) entries
    /\ In e (publish_entry envPrefix outputKey v)
    /\ incl (publish_entry envPrefix outputKey v)
            (publish patternRegex envPrefix entries).
Proof.
  revert patternRegex; induction entries as [|[fullKey v] rest IH];
    intros patternRegex; cbn [publish]; [intros [] |].
  destruct (filter_key patternRegex fullKey) as [[include outputKey] re'].
  intros H. apply in_app_or in H as [H|H].
  - destruct include; [|destruct H].
    exists fullKey, outputKey, v.
    split; [now left | split; [exact H |]].
    intros x Hx. apply in_or_app. now left.
  - destruct (IH _ H) as [k [o [w [I [J K]]]]].
    exists k, o, w. split; [now right | split; [exact J |]].
    intros x Hx. apply in_or_app. right. now apply K.
Qed.

(** Without a pattern every entry is included under its own name. *)
Lemma publish_without_pattern (envPrefix : string)
  (entries : list (string * value)) :
  publish None envPrefix entries
  = flat_map (fun kv => publish_entry envPrefix (fst kv) (snd kv)) entries.
Proof.
  induction entries as [|[fullKey v] rest IH]; [reflexivity |].
  cbn [publish filter_key flat_map fst snd]. now rewrite IH.
Qed.

(** C8: when [env-var-prefix] is set, every output the loop publishes
    for an included key comes with the environment variable named by
    the prefix, an underscore and the output key in which every dot and
    every hyphen is an underscore, and the loop exports no other
    variable; the prefix [APP_CONF] and the key
    [application.config.port] give [APP_CONF_application_config_port]. *)
Theorem exported_variable_name (patternRegex : option RegExp)
  (envPrefix : string) (entries : obj) :
  envPrefix <> "" ->
  (forall outputKey v,
     In (SetOutput outputKey v) (publish patternRegex envPrefix entries) ->
     In (ExportVariable
           (envPrefix ++ "_" ++ Str.map underscore outputKey)%string v)
        (publish patternRegex envPrefix entries))
  /\ (forall name v,
        In (ExportVariable name v) (publish patternRegex envPrefix entries) ->
        exists outputKey,
          In (SetOutput outputKey v) (publish patternRegex envPrefix entries)
          /\ name = (envPrefix ++ "_" ++ Str.map underscore outputKey)%string)
  /\ env_name "APP_CONF" "application.config.port"
     = "APP_CONF_application_config_port"
  /\ env_name "APP_CONF" "log-level.max-size" = "APP_CONF_log_level_max_size".
Proof.
  intros P. split; [|split; [|split; reflexivity]].
  - intros outputKey v H.
    destruct (publish_events _ _ _ _ H) as [k [o [w [_ [J K]]]]].
    apply publish_entry_events in J as [J|[J|[_ [J|J]]]]; try discriminate.
    injection J as <- <-. apply K. unfold publish_entry.
    apply String.eqb_neq in P. rewrite P. cbn [negb].
    rewrite <- env_name_clean. cbn. tauto.
  - intros name v H.
    destruct (publish_events _ _ _ _ H) as [k [o [w [_ [J K]]]]].
    apply publish_entry_events in J as [J|[J|[_ [J|J]]]]; try discriminate.
    injection J as -> ->. exists o. split; [|apply env_name_clean].
    apply K. unfold publish_entry. cbn. tauto.
Qed.

(** The key [a.b-c] under the prefix [APP]. *)
Lemma exported_variable_name_witness :
  "APP" <> ""
  /\ In (ExportVariable "APP_a_b_c" (VStr "1"))
        (publish None "APP" [("a.b-c", VStr "1")]).
Proof.
  assert (P : "APP" <> "") by discriminate.
  split; [exact P |].
  apply (proj1 (exported_variable_name None "APP" [("a.b-c", VStr "1")] P)
           "a.b-c" (VStr "1")).
  cbn. tauto.
Defined.

(** ** The filter *)

Lemma filter_key_excludes (m : matcher) (key : string) :
  search_from m key 0 = None ->
  filter_key (Some (mkRegExp m 0)) key = (false, key, Some (mkRegExp m 0)).
Proof.
  intros H. unfold filter_key, RegExp_test. cbn [matcher_of lastIndex].
  now rewrite H.
Qed.

(** C2, as the code has it: a flat key the pattern matches is included
    and its output key is the flat key without every match of the
    pattern, the first one and each later one that the search resumed
    at the end of the previous match finds; the output key is the flat
    key without its first match alone when the pattern has no later
    match in the key.  The pattern object is left ready for the next
    key. *)
Theorem filter_removes_every_match (m : matcher) (key : string) (i e : nat) :
  wf_matcher m ->
  search_from m key 0 = Some (i, e) ->
  let spans := match_spans (S (S (String.length key))) m key 0 in
  filter_key (Some (mkRegExp m 0)) key
  = (true, without_spans spans key 0, Some (mkRegExp m 0))
  /\ (exists later, spans = (i, e) :: later)
  /\ (forall fuel, S (S (String.length key)) <= fuel ->
        match_spans fuel m key 0 = spans)
  /\ (search_from m key (if Nat.leb e i then S e else e) = None ->
      without_spans spans key 0 = remove_first_match m key).
Proof.
  intros W S0 spans. split; [|split; [|split]].
  - unfold filter_key, RegExp_test, String_replace_all.
    cbn [matcher_of lastIndex]. rewrite S0. cbn [matcher_of].
    rewrite (replace_loop_spans m key W) by lia. reflexivity.
  - unfold spans. cbn [match_spans]. rewrite S0. now eexists.
  - intros fuel L. apply (match_spans_fuel m key W); lia.
  - intros S1. unfold spans, remove_first_match.
    cbn [match_spans]. rewrite S0, S1. cbn [without_spans Str.drop].
    now rewrite Nat.sub_0_r.
Qed.

(** The matchers of the example engine are well formed. *)
Lemma pattern_wf (atoms : list Pattern.atom) :
  wf_matcher (Pattern.match_atoms atoms).
Proof.
  intros s. induction atoms as [|[c| | |] atoms IH]; intros i e L;
    cbn [Pattern.match_atoms].
  - intros [= <-]. lia.
  - destruct (String.get i s) as [d|] eqn:G; [|discriminate].
    apply StrFacts.get_lt in G.
    destruct (Ascii.eqb c d); [|discriminate].
    intros H. apply IH in H; lia.
  - destruct (String.get i s) as [d|] eqn:G; [|discriminate].
    apply StrFacts.get_lt in G.
    destruct (Pattern.line_terminator d); [discriminate |].
    intros H. apply IH in H; lia.
  - destruct (Nat.eqb i 0); [|discriminate]. now apply IH.
  - destruct (Nat.eqb i (String.length s)); [|discriminate]. now apply IH.
Qed.

(** The pattern [/[.]/g] on the key [a.b.c]. *)
Lemma filter_removes_every_match_witness :
  search_from (class_matcher ".") "a.b.c" 0 = Some (1, 2)
  /\ filter_key (Some (mkRegExp (class_matcher ".") 0)) "a.b.c"
     = (true, "abc", Some (mkRegExp (class_matcher ".") 0)).
Proof.
  split; [reflexivity |].
  exact (proj1 (filter_removes_every_match (class_matcher ".") "a.b.c" 1 2
                  (class_matcher_wf ".") eq_refl)).
Defined.

(** C2, as the specification words it, fails: under the pattern
    [config\.] the flat key [config.app.config.port] is published as
    [app.port], while the key without its first match is
    [app.config.port]. *)
Lemma first_match_only_counterexample :
  exists m,
    Pattern.compile "config\." = Ok m
    /\ remove_first_match m "config.app.config.port" = "app.config.port"
    /\ fst (filter_key (Some (mkRegExp m 0)) "config.app.config.port")
       = (true, "app.port")
    /\ output_names (fst (run nested_world)) = ["app.port"]
    /\ ~ (forall key i e,
            search_from m key 0 = Some (i, e) ->
            snd (fst (filter_key (Some (mkRegExp m 0)) key))
            = remove_first_match m key).
Proof.
  eexists. split; [reflexivity |].
  split; [reflexivity | split; [reflexivity | split; [reflexivity |]]].
  intros H. specialize (H "config.app.config.port" 0 7 eq_refl).
  discriminate H.
Qed.

(** ** One invocation *)

Lemma validateSubscription_goes_on (w : world) :
  subscription w <> Forbidden -> snd (validateSubscription w) = true.
Proof. unfold validateSubscription. now destruct (subscription w). Qed.

Lemma validateSubscription_events (w : world) (e : event) :
  In e (fst (validateSubscription w)) ->
  exists message, e = LogInfo message \/ e = LogError message.
Proof.
  unfold validateSubscription. destruct (subscription w); cbn [fst In];
    intros H; try tauto; destruct H as [<-|[]]; eexists; eauto.
Qed.

(** An invocation that reaches the file: the events of the subscription
    check are followed by those of the callback, and the way the
    callback ends is the way the process ends. *)
Lemma run_reads (w : world) :
  subscription w <> Forbidden ->
  run w
  = (fst (validateSubscription w)
     ++ fst (callback w (getInput w "key-path-pattern")
               (getInput w "env-var-prefix")
               (readFile w (getInput w "config"))),
     ending_of (snd (callback w (getInput w "key-path-pattern")
                       (getInput w "env-var-prefix")
                       (readFile w (getInput w "config"))))).
Proof.
  intros S. unfold run, run_try.
  pose proof (validateSubscription_goes_on w S) as G.
  destruct (validateSubscription w) as [es goes_on]. cbn [snd] in G. subst.
  cbn [fst].
  destruct (callback w _ _ _) as [es' [u|e|]]; reflexivity.
Qed.

(** The input [key-path] is never read. *)
Lemma run_ignores_key_path (w : world) (p : string) :
  run (with_input w "key-path" p) = run w.
Proof. reflexivity. Qed.

Lemma traverse_events (fuel : nat) (node : value) (path : string) (m : obj)
  (e : event) :
  In e (fst (traverse fuel node path m)) -> exists name v, e = SetOutput name v.
Proof.
  destruct node as [ | | b | z | s | l | props] eqn:N;
    try (cbn [traverse fst]; intros []);
    rewrite traverse_process by discriminate;
    intros H; apply process_events in H as [k [v [_ ->]]]; eauto.
Qed.

(** The events of the callback after a successful read. *)
Lemma on_read_events (w : world) (filterPattern envPrefix raw : string)
  (e : event) :
  In e (fst (on_read w filterPattern envPrefix raw)) ->
  (exists message, e = LogInfo message)
  \/ (exists parsed,
        yaml_load w raw = Ok parsed
        /\ (In e (fst (traverse (fuel_of w) parsed "" []))
            \/ exists re resolvedValues es,
                 traverse (fuel_of w) parsed "" [] = (es, Ok resolvedValues)
                 /\ In e (publish re envPrefix resolvedValues))).
Proof.
  unfold on_read.
  set (banner := (if negb (String.eqb filterPattern "") then _ else _) ++ _).
  assert (B : In e banner -> exists message, e = LogInfo message).
  { unfold banner. destruct (negb (String.eqb filterPattern "")); cbn;
      intros H; repeat destruct H as [<-|H]; try destruct H; eauto. }
  destruct (yaml_load w raw) as [parsed| |]; cbn [fst];
    try (intros H; left; now apply B).
  destruct (traverse (fuel_of w) parsed "" []) as [es [m| |]] eqn:T;
    cbn [fst];
    try (intros H; apply in_app_or in H as [H|H];
         [left; now apply B
         | right; exists parsed; split; [reflexivity |];
           rewrite T; now left]).
  assert (P : forall re,
             In e (banner ++ es ++ publish re envPrefix m) ->
             (exists message, e = LogInfo message)
             \/ exists parsed0,
                  Ok parsed = Ok parsed0
                  /\ (In e (fst (traverse (fuel_of w) parsed0 "" []))
                      \/ exists re resolvedValues es0,
                           traverse (fuel_of w) parsed0 "" []
                           = (es0, Ok resolvedValues)
                           /\ In e (publish re envPrefix resolvedValues))).
  { intros re H. apply in_app_or in H as [H|H]; [left; now apply B |].
    right. exists parsed. split; [reflexivity |]. rewrite T. cbn [fst].
    apply in_app_or in H as [H|H]; [now left |].
    right. now exists re, m, es. }
  destruct (negb (String.eqb filterPattern "")); [|apply P].
  destruct (RegExp_new w filterPattern) as [mt| |]; cbn [fst];
    try apply P;
    intros H; apply in_app_or in H as [H|H];
    try (left; now apply B);
    right; exists parsed; (split; [reflexivity |]); rewrite T; now left.
Qed.

(** What the flattening published is among the events of the callback
    whatever the pattern and the prefix are. *)
Lemma on_read_keeps_markers (w : world) (filterPattern envPrefix raw : string)
  (parsed : value) (e : event) :
  yaml_load w raw = Ok parsed ->
  In e (fst (traverse (fuel_of w) parsed "" [])) ->
  In e (fst (on_read w filterPattern envPrefix raw)).
Proof.
  intros Y H. unfold on_read. rewrite Y.
  destruct (traverse (fuel_of w) parsed "" []) as [es [m| |]];
    cbn [fst] in *; try (apply in_or_app; now right).
  destruct (negb (String.eqb filterPattern ""));
    [destruct (RegExp_new w filterPattern) |]; cbn [fst];
    apply in_or_app; right; try assumption; apply in_or_app; now left.
Qed.

(** Every event of an invocation is a line of the log, an output, or
    an exported variable that carries a value of the mapping the
    traversal built. *)
Lemma run_events (w : world) (e : event) :
  In e (fst (run w)) ->
  (exists message, e = LogInfo message \/ e = LogError message)
  \/ (exists name v, e = SetOutput name v)
  \/ (exists name v parsed es m k,
        e = ExportVariable name v
        /\ traverse (fuel_of w) parsed "" [] = (es, Ok m)
        /\ In (k, v) m).
Proof.
  destruct (subscription w) eqn:S.
  2: { unfold run, run_try, validateSubscription. rewrite S. cbn.
       intros [<-|[]]. left. eauto. }
  all: rewrite run_reads by (rewrite S; discriminate); cbn [fst];
    intros H; apply in_app_or in H as [H|H];
    [apply validateSubscription_events in H as [x H]; left; eauto |];
    unfold callback in H;
    destruct (readFile w (getInput w "config")) as [msg|raw];
    [destruct H as [<-|[]]; left; eauto |];
    apply on_read_events in H
      as [[x ->]|[parsed [_ [H|[re [m [es [T H]]]]]]]];
    [left; eauto
    | apply traverse_events in H as [n [v ->]]; right; left; eauto |];
    apply publish_events in H as [k [o [v [I [H _]]]]];
    apply publish_entry_events in H as [->|[->|[_ [->| ->]]]];
    try (left; now eauto); try (right; left; now eauto);
    right; right; exists (env_name (getInput w "env-var-prefix") o), v,
      parsed, es, m, k; auto.
Qed.

(** [core.setFailed] is called in no invocation. *)
Lemma run_never_sets_failed (w : world) (message : string) :
  ~ In (SetFailed message) (fst (run w)).
Proof.
  intros H. apply run_events in H
    as [[x [H|H]]|[[n [v H]]|[n [v [p [es [m [k [H _]]]]]]]]];
    discriminate.
Qed.

(** An exception the callback throws once the file is read ends the
    invocation uncaught. *)
Lemma errors_after_read_are_uncaught (w : world) (raw e : string) :
  subscription w <> Forbidden ->
  readFile w (getInput w "config") = Contents raw ->
  snd (on_read w (getInput w "key-path-pattern")
         (getInput w "env-var-prefix") raw) = Throw e ->
  snd (run w) = Uncaught e.
Proof.
  intros S R T. rewrite (run_reads w S), R. cbn [snd callback].
  now rewrite T.
Qed.

(** C1: the pattern is read from the input [key-path-pattern], not from
    [key-path].  In the workflow of Example 3 of the README, which sets
    [key-path], no key is filtered or renamed; with the same pattern
    under [key-path-pattern] and no [key-path] at all, keys are
    excluded and renamed. *)
Theorem key_path_is_not_the_input_read :
  output_names (fst (run readme_world))
  = ["application.config.host"; "application.config.port";
     "application.credentials.username"; "application.credentials.password";
     "deployment.path"; "deployment.target"]
  /\ getInput pattern_world "key-path" = ""
  /\ output_names (fst (run pattern_world)) = ["host"; "port"]
  /\ exported_names (fst (run pattern_world))
     = ["APP_CONF_host"; "APP_CONF_port"].
Proof. repeat split; reflexivity. Qed.

(** When the input the code reads is empty, every entry of the mapping
    is published under its flat key. *)
Lemma no_pattern_publishes_all (w : world) (raw : string) :
  subscription w <> Forbidden ->
  readFile w (getInput w "config") = Contents raw ->
  getInput w "key-path-pattern" = "" ->
  fst (run w)
  = fst (validateSubscription w)
    ++ LogInfo "YAML file content loaded successfully."
    :: match yaml_load w raw with
       | Ok parsed =>
           match traverse (fuel_of w) parsed "" [] with
           | (es, Ok resolvedValues) =>
               es ++ flat_map
                       (fun kv =>
                          publish_entry (getInput w "env-var-prefix")
                            (fst kv) (snd kv))
                       resolvedValues
           | (es, _) => es
           end
       | _ => []
       end.
Proof.
  intros S R E. rewrite (run_reads w S), R, E. cbn [fst callback].
  f_equal. unfold on_read. cbn [String.eqb negb app].
  destruct (yaml_load w raw) as [parsed| |]; try reflexivity.
  destruct (traverse (fuel_of w) parsed "" []) as [es [m| |]]; try reflexivity.
  cbn [fst app]. now rewrite publish_without_pattern.
Qed.

(** The exceptions of the callback once the file is read: the parser
    throws, the traversal throws, or the pattern does not compile. *)
Lemma on_read_throws (w : world) (filterPattern envPrefix raw e : string) :
  yaml_load w raw = Throw e
  \/ (exists parsed es,
        yaml_load w raw = Ok parsed
        /\ traverse (fuel_of w) parsed "" [] = (es, Throw e))
  \/ (exists parsed es resolvedValues,
        yaml_load w raw = Ok parsed
        /\ traverse (fuel_of w) parsed "" [] = (es, Ok resolvedValues)
        /\ filterPattern <> ""
        /\ RegExp_new w filterPattern = Throw e) ->
  snd (on_read w filterPattern envPrefix raw) = Throw e.
Proof.
  unfold on_read.
  intros [Y | [[parsed [es [Y T]]] | [parsed [es [m [Y [T [N R]]]]]]]];
    rewrite Y; [reflexivity | |]; rewrite T; [reflexivity |].
  apply String.eqb_neq in N. rewrite N. cbn [negb]. now rewrite R.
Qed.

(** C3: once the file is read, an error thrown by the parser, by the
    traversal, which throws the error of an undefined variable, or by
    the compilation of the pattern ends the process: the exception
    leaves the callback, Node prints it with its message and ends with
    the exit code 1, so that the step fails; this is the one failure of
    the invocation, as [core.setFailed] is not called. *)
Theorem errors_after_read_fail_the_step (w : world) (raw e : string) :
  subscription w <> Forbidden ->
  readFile w (getInput w "config") = Contents raw ->
  yaml_load w raw = Throw e
  \/ (exists parsed es,
        yaml_load w raw = Ok parsed
        /\ traverse (fuel_of w) parsed "" [] = (es, Throw e))
  \/ (exists parsed es resolvedValues,
        yaml_load w raw = Ok parsed
        /\ traverse (fuel_of w) parsed "" [] = (es, Ok resolvedValues)
        /\ getInput w "key-path-pattern" <> ""
        /\ RegExp_new w (getInput w "key-path-pattern") = Throw e) ->
  snd (run w) = Uncaught e
  /\ failure_message (snd (run w)) = Some e
  /\ exit_code (snd (run w)) = Some 1
  /\ step_fails (snd (run w)) = true
  /\ forall message, ~ In (SetFailed message) (fst (run w)).
Proof.
  intros S R T.
  apply (on_read_throws w _ (getInput w "env-var-prefix")) in T.
  rewrite (errors_after_read_are_uncaught w raw e S R T).
  repeat split. intros message. apply run_never_sets_failed.
Qed.

(** The document [b: $(missing)]: the step fails with the message of
    the undefined variable. *)
Lemma errors_after_read_fail_the_step_witness :
  subscription missing_world <> Forbidden
  /\ snd (run missing_world) = Uncaught (not_defined "missing")
  /\ failure_message (snd (run missing_world))
     = Some (not_defined "missing")
  /\ exit_code (snd (run missing_world)) = Some 1.
Proof.
  assert (S : subscription missing_world <> Forbidden) by discriminate.
  split; [exact S |].
  destruct (errors_after_read_fail_the_step missing_world
              ("b: $(missing)" ++ lf) (not_defined "missing") S
              eq_refl
              (or_intror (or_introl
                 (ex_intro _ (VObj [("b", VStr "$(missing)")])
                    (ex_intro _ [] (conj eq_refl eq_refl))))))
    as [A [B [C _]]].
  split; [exact A | split; [exact B | exact C]].
Defined.

(** C7: when the file cannot be read, the callback logs the error and
    returns: the invocation ends normally, no failure is set, and no
    output or environment variable is published. *)
Theorem read_failure_is_only_logged (w : world) (message : string) :
  subscription w <> Forbidden ->
  readFile w (getInput w "config") = Unreadable message ->
  run w
  = (fst (validateSubscription w)
     ++ [LogError ("Failed to read YAML: " ++ message)], Finished)
  /\ forall e, In e (fst (run w)) ->
       match e with
       | LogInfo _ | LogError _ => True
       | SetOutput _ _ | ExportVariable _ _ | SetFailed _ => False
       end.
Proof.
  intros S R.
  assert (E : run w
              = (fst (validateSubscription w)
                 ++ [LogError ("Failed to read YAML: " ++ message)], Finished)).
  { rewrite (run_reads w S), R. reflexivity. }
  split; [exact E |]. rewrite E. cbn [fst]. intros e H.
  apply in_app_or in H as [H|[<-|[]]]; [|exact I].
  apply validateSubscription_events in H as [x [->| ->]]; exact I.
Qed.

(** The file [absent.yaml] does not exist in [unreadable_world]. *)
Lemma read_failure_is_only_logged_witness :
  subscription unreadable_world <> Forbidden
  /\ readFile unreadable_world (getInput unreadable_world "config")
     = Unreadable "ENOENT: no such file or directory, open 'absent.yaml'"
  /\ run unreadable_world
     = ([LogError "Failed to read YAML: ENOENT: no such file or directory, open 'absent.yaml'"],
        Finished).
Proof.
  assert (S : subscription unreadable_world <> Forbidden) by discriminate.
  split; [exact S | split; [reflexivity |]].
  exact (proj1 (read_failure_is_only_logged unreadable_world _ S eq_refl)).
Defined.

(** ** Sequences *)

Lemma resolveVariables_not_array (fuel : nat) (input : value) (lookup : obj)
  (v : value) (l : list value) :
  is_container input = false ->
  resolveVariables fuel input lookup = Ok v -> v <> VArr l.
Proof.
  destruct input as [ | | b | z | s | l0 | props]; try discriminate;
    intros _; cbn [resolveVariables]; try (intros [= <-]; discriminate).
  destruct (resolve_loop fuel s lookup); cbn [rmap]; try discriminate.
  intros [= <-]. discriminate.
Qed.

(** What [resolveVariables] returns for a leaf is no array and no
    object, so the traversal assigns none. *)
Lemma resolveVariables_leaf (fuel : nat) (input : value) (lookup : obj)
  (v : value) :
  is_container input = false ->
  resolveVariables fuel input lookup = Ok v -> is_container v = false.
Proof.
  destruct input as [ | | b | z | s | l0 | props]; try discriminate;
    intros _; cbn [resolveVariables]; try (intros [= <-]; reflexivity).
  destruct (resolve_loop fuel s lookup); cbn [rmap]; try discriminate.
  intros [= <-]. reflexivity.
Qed.

(** No value of the mapping the traversal builds is a list. *)
Lemma traverse_stores_no_array (fuel : nat) (doc : value) (es : list event)
  (m : obj) (k : string) (v : value) (l : list value) :
  traverse fuel doc "" [] = (es, Ok m) -> In (k, v) m -> v <> VArr l.
Proof.
  intros T I.
  assert (U : doc <> VUndefined) by (intros ->; discriminate).
  assert (N : doc <> VNull) by (intros ->; discriminate).
  rewrite (traverse_process fuel doc U N) in T.
  destruct (process_stored _ _ _ _ _ _ _ T I) as [[]|[val [lk [L R]]]].
  pose proof (items_shape doc "") as Sh.
  rewrite Forall_forall in Sh. specialize (Sh _ L). cbn in Sh.
  now apply (resolveVariables_not_array fuel val lk).
Qed.

(** C9, as the code has it: when the traversal meets a sequence under
    the flat key [P] it publishes the output [P.array] with the raw
    list before it visits the elements; the events of the traversal are
    among the events of the invocation whatever the pattern and the
    prefix are, and no exported variable carries a list; the traversal
    of the sequence leaves the entry [P.array] of the mapping as it was,
    so that a reference to [P.array] fails as undefined when no leaf
    was stored under that very name before. *)
Theorem sequence_is_announced_not_stored (fuel : nat) (path key : string)
  (l : list value) (m : obj) :
  let P := full_key path key in
  visit (traverse fuel) fuel path key (VArr l) m
  = (let (es, r) := traverse fuel (VArr l) P m in
     (SetOutput (P ++ ".array") (VArr l) :: es, r))
  /\ (forall es m',
        traverse fuel (VArr l) P m = (es, Ok m') ->
        Obj.own m' (P ++ ".array") = Obj.own m (P ++ ".array")
        /\ (Obj.own m (P ++ ".array") = None ->
            forall current i,
              find_token current = Some (i, (P ++ ".array")%string) ->
              resolveVariables fuel (VStr current) m'
              = Throw (not_defined (P ++ ".array"))))
  /\ (forall w raw parsed e,
        subscription w <> Forbidden ->
        readFile w (getInput w "config") = Contents raw ->
        yaml_load w raw = Ok parsed ->
        In e (fst (traverse (fuel_of w) parsed "" [])) ->
        In e (fst (run w)))
  /\ (forall w name v,
        In (ExportVariable name v) (fst (run w)) -> forall l', v <> VArr l').
Proof.
  intros P. split; [|split; [|split]].
  - unfold visit. cbn [is_container isArray app]. reflexivity.
  - intros es m' T.
    rewrite traverse_process in T by discriminate.
    assert (F : Obj.own m' (P ++ ".array") = Obj.own m (P ++ ".array")).
    { apply (process_frame _ _ _ _ _ _ T). apply items_array_keys. }
    split; [exact F |]. intros O current i Fd.
    apply (proj2 (own_reference_throws_iff fuel current m' i _ Fd
                    (dotted_not_inherited P "array"))).
    left. now rewrite F.
  - intros w raw parsed e S R Y H.
    rewrite (run_reads w S), R. cbn [fst callback].
    apply in_or_app. right. now apply (on_read_keeps_markers w _ _ raw parsed).
  - intros w name v H l'.
    apply run_events in H
      as [[x [H|H]]|[[n [x H]]|[n [x [p [es [rv [k [H [T I]]]]]]]]]];
      try discriminate.
    injection H as _ <-.
    exact (traverse_stores_no_array _ _ _ _ _ _ l' T I).
Qed.

(** The sequence [ports] of [sequence_world] is announced although the
    pattern excludes every key under it, and a reference to
    [ports.array] fails. *)
Lemma sequence_is_announced_not_stored_witness :
  In (SetOutput "ports.array" (VArr [VStr "80"; VStr "443"]))
     (fst (run sequence_world))
  /\ resolveVariables 8 (VStr "$(ports.array)")
       [("ports.0", VStr "80"); ("ports.1", VStr "443")]
     = Throw (not_defined "ports.array").
Proof.
  split.
  - apply (proj1 (proj2 (proj2
             (sequence_is_announced_not_stored 8 "" "ports"
                [VStr "80"; VStr "443"] [])))
             sequence_world
             ("name: web" ++ lf ++ "ports:" ++ lf ++ "  - 80" ++ lf
              ++ "  - 443" ++ lf)%string
             (VObj [("name", VStr "web");
                    ("ports", VArr [VStr "80"; VStr "443"])])).
    + discriminate.
    + reflexivity.
    + reflexivity.
    + cbn. tauto.
  - apply (proj2 (proj1 (proj2
             (sequence_is_announced_not_stored 8 "" "ports"
                [VStr "80"; VStr "443"] []))
             [] [("ports.0", VStr "80"); ("ports.1", VStr "443")]
             eq_refl) eq_refl "$(ports.array)" 0 eq_refl).
Defined.

(** C9, as it is worded, fails: in [clash_doc] the sequence under
    [list] is announced as [list.array], and the later reference
    [$(list.array)] does not fail, because the document has a scalar
    under the key [list.array]. *)
Lemma marker_name_clash_counterexample :
  In (Marker "list" (VArr [VStr "a"])) (items clash_doc "")
  /\ traverse 8 clash_doc "" []
     = ([SetOutput "list.array" (VArr [VStr "a"])],
        Ok [("list.0", VStr "a"); ("list.array", VStr "v"); ("r", VStr "v")])
  /\ ~ (forall es m,
          traverse 8 (VObj [("list", VArr [VStr "a"])]) "" [] = (es, Ok m) ->
          forall props' r,
            exists e,
              snd (traverse 8 (VObj (props' ++ [(r, VStr "$(list.array)")]))
                     "" m)
              = Throw e).
Proof.
  split; [cbn; tauto | split; [reflexivity |]].
  intros H.
  specialize (H _ _ eq_refl [("list.array", VStr "v")] "r") as [e H].
  discriminate H.
Qed.

(** * Further properties of the pipeline *)

(** ** Tokens and the resolution loop *)

Lemma find_token_split (s : string) (i : nat) (n : string) :
  find_token s = Some (i, n) ->
  s = (Str.take i s ++ token n
       ++ Str.drop (i + String.length (token n)) s)%string.
Proof.
  intros F. apply find_token_sound in F as [A _].
  apply token_at_sound in A as [_ [_ [rest E]]].
  rewrite <- (StrFacts.drop_drop (String.length (token n)) i s), E.
  rewrite StrFacts.drop_app_length, <- E. symmetry. apply StrFacts.take_drop.
Qed.

Lemma count_char_app (c : ascii) (a b : string) :
  count_char c (a ++ b) = count_char c a + count_char c b.
Proof.
  induction a as [|x a IH]; cbn [append count_char]; [reflexivity |].
  rewrite IH. lia.
Qed.

Lemma count_char_absent (c : ascii) (s : string) :
  Str.mem c s = false -> count_char c s = 0.
Proof.
  induction s as [|x s IH]; cbn [Str.mem count_char]; [reflexivity |].
  intros M. apply orb_false_iff in M as [E M]. now rewrite E, (IH M).
Qed.

Lemma count_token (c : ascii) (n : string) :
  c = "$"%char -> 1 <= count_char c (token n).
Proof. intros ->. unfold token. cbn. lia. Qed.

Lemma find_token_count (s : string) (i : nat) (n : string) :
  find_token s = Some (i, n) ->
  1 + count_char "$" (Str.take i s)
  + count_char "$" (Str.drop (i + String.length (token n)) s)
  <= count_char "$" s.
Proof.
  intros F. pose proof (find_token_split s i n F) as E.
  apply (f_equal (count_char "$")) in E. rewrite !count_char_app in E.
  pose proof (count_token "$" n eq_refl). lia.
Qed.

Lemma find_token_no_dollar (s : string) :
  Str.mem "$" s = false -> find_token s = None.
Proof.
  induction s as [|c s IH]; [reflexivity |].
  cbn [Str.mem]. intros M. apply orb_false_iff in M as [E M].
  cbn [find_token]. destruct (token_at (String c s)) as [n|] eqn:T.
  - apply token_at_sound in T as [_ [_ [rest T]]].
    unfold token in T. cbn in T. injection T as -> _. discriminate.
  - now rewrite (IH M).
Qed.

Lemma resolve_loop_done (fuel : nat) (s : string) (lookup : obj) :
  find_token s = None -> resolve_loop fuel s lookup = Ok s.
Proof. intros F. destruct fuel; cbn [resolve_loop]; now rewrite F. Qed.



(** A string without a dollar sign is returned as it is, whatever the
    lookup holds and without a turn of the loop. *)
Theorem text_without_dollar_is_unchanged (fuel : nat) (s : string)
  (lookup : obj) :
  Str.mem "$" s = false ->
  resolveVariables fuel (VStr s) lookup = Ok (VStr s).
Proof.
  intros M. cbn [resolveVariables].
  now rewrite (resolve_loop_done fuel s lookup (find_token_no_dollar s M)).
Qed.

Lemma text_without_dollar_is_unchanged_witness :
  Str.mem "$" "postgres:14 (prod)" = false
  /\ resolveVariables 0 (VStr "postgres:14 (prod)") [] 
     = Ok (VStr "postgres:14 (prod)").
Proof.
  split; [reflexivity |].
  exact (text_without_dollar_is_unchanged 0 "postgres:14 (prod)" [] eq_refl).
Defined.

(** Resolution is idempotent on leaves: what [resolveVariables] returns
    for a string or a primitive it returns again for that result, with
    any lookup and any fuel. *)
Theorem resolved_leaf_is_stable (fuel : nat) (input : value) (lookup : obj)
  (v : value) :
  is_container input = false ->
  resolveVariables fuel input lookup = Ok v ->
  forall fuel' lookup', resolveVariables fuel' v lookup' = Ok v.
Proof.
  intros C R fuel' lookup'.
  destruct input as [ | | b | z | s | l | props]; try discriminate;
    try (cbn [resolveVariables] in R; injection R as <-; reflexivity).
  apply resolveVariables_string in R as [t [-> F]].
  cbn [resolveVariables]. now rewrite (resolve_loop_done fuel' t lookup' F).
Qed.

Lemma resolved_leaf_is_stable_witness :
  is_container (VStr "$(a)-$(a)") = false
  /\ resolveVariables 4 (VStr "$(a)-$(a)") [("a", VStr "US$5")]
     = Ok (VStr "US$5-US$5")
  /\ resolveVariables 0 (VStr "US$5-US$5") [] = Ok (VStr "US$5-US$5").
Proof.
  split; [reflexivity | split; [reflexivity |]].
  exact (resolved_leaf_is_stable 4 (VStr "$(a)-$(a)") [("a", VStr "US$5")]
           (VStr "US$5-US$5") eq_refl eq_refl 0 []).
Defined.

(** With a truthy value that holds no dollar sign, one turn of the
    loop puts the text of the value in the place of the token found,
    keeps the text before and after it, and scans the result again. *)
Theorem plain_value_replaces_token (fuel : nat) (current : string)
  (lookup : obj) (i : nat) (name : string) (v : value) :
  find_token current = Some (i, name) ->
  Obj.own lookup name = Some v -> truthy v = true ->
  Str.mem "$" (ToString v) = false ->
  resolveVariables (S fuel) (VStr current) lookup
  = resolveVariables fuel
      (VStr (Str.take i current ++ ToString v
             ++ Str.drop (i + (String.length name + 3)) current)) lookup.
Proof.
  intros F O T D. cbn [resolveVariables]. f_equal.
  rewrite (resolve_loop_plain fuel current lookup i name v F O T D).
  replace (String.length (token name)) with (String.length name + 3);
    [reflexivity |].
  unfold token. cbn. rewrite StrFacts.length_app. cbn. lia.
Qed.

Lemma plain_value_replaces_token_witness :
  find_token "x-$(a)-$(b)" = Some (2, "a")
  /\ resolveVariables 3 (VStr "x-$(a)-$(b)") [("a", VNum 7); ("b", VStr "z")]
     = resolveVariables 2 (VStr "x-7-$(b)") [("a", VNum 7); ("b", VStr "z")].
Proof.
  split; [reflexivity |].
  exact (plain_value_replaces_token 2 "x-$(a)-$(b)"
           [("a", VNum 7); ("b", VStr "z")] 2 "a" (VNum 7)
           eq_refl eq_refl eq_refl eq_refl).
Defined.

(** With a plain lookup the replacement of a token throws, or it puts a
    text without dollar sign in the place of the token. *)
Lemma replace_with_plain (current : string) (lookup : obj) (i : nat)
  (ref : string) :
  plain_lookup lookup ->
  find_token current = Some (i, ref) ->
  Obj.defined (Obj.get lookup ref) = true ->
  (exists e, replace_with current (token ref) (Obj.get lookup ref) = Throw e)
  \/ exists text,
       Str.mem "$" text = false
       /\ replace_with current (token ref) (Obj.get lookup ref)
          = Ok (Str.take i current ++ text
                ++ Str.drop (i + String.length (token ref)) current)%string.
Proof.
  intros [P C] F. unfold Obj.get in *.
  destruct (Obj.own lookup ref) as [v|] eqn:O.
  - cbn [Obj.defined replace_with]. intros T. right.
    exists (ToString v). pose proof (P ref v O T) as D. split; [exact D |].
    now rewrite (String_replace_token current i ref v F D).
  - destruct (proto lookup); [| discriminate].
    unfold Obj.inherited.
    destruct (String.eqb ref "__proto__").
    { intros _. right. exists "[object Object]". split; [reflexivity |].
      cbn [replace_with].
      now rewrite (String_replace_token current i ref (VObj []) F eq_refl). }
    destruct (existsb (String.eqb ref) Obj.methods); [| discriminate].
    intros _. cbn [replace_with]. rewrite (indexOf_token current i ref F).
    unfold call_method.
    destruct (String.eqb ref "constructor") eqn:E.
    { apply String.eqb_eq in E. subst ref. rewrite O in C. now elim C. }
    destruct (String.eqb ref "toString").
    { right. exists "[object Undefined]". now split. }
    destruct (String.eqb ref "isPrototypeOf").
    { right. exists "false". now split. }
    left. now exists receiver_TypeError.
Qed.

(** With a plain lookup every turn of the loop removes a dollar sign
    from the text, so the loop ends, with a string or with an
    exception, within as many turns as the text has dollar signs. *)
Theorem plain_lookup_terminates (fuel : nat) (current : string)
  (lookup : obj) :
  plain_lookup lookup ->
  count_char "$" current <= fuel ->
  resolveVariables fuel (VStr current) lookup <> Hang.
Proof.
  intros P. cbn [resolveVariables].
  assert (L : resolve_loop fuel current lookup <> Hang ->
              rmap VStr (resolve_loop fuel current lookup) <> Hang).
  { destruct (resolve_loop fuel current lookup); cbn [rmap];
      intros H; try discriminate. now elim H. }
  intros C. apply L. clear L.
  revert current C; induction fuel as [|fuel IH]; intros current C.
  - cbn [resolve_loop].
    destruct (find_token current) as [[i ref]|] eqn:F; [|discriminate].
    destruct (Obj.defined (Obj.get lookup ref)); cbn [negb]; [|discriminate].
    exfalso. pose proof (find_token_count current i ref F). lia.
  - destruct (find_token current) as [[i ref]|] eqn:F;
      [|rewrite (resolve_loop_done _ _ _ F); discriminate].
    rewrite (resolve_loop_step fuel current lookup i ref F).
    destruct (Obj.defined (Obj.get lookup ref)) eqn:T; [|discriminate].
    destruct (replace_with_plain current lookup i ref P F T)
      as [[e ->] | [text [D ->]]]; [discriminate |].
    apply IH. pose proof (find_token_count current i ref F).
    rewrite !count_char_app, (count_char_absent _ _ D). lia.
Qed.

(** A mapping with a key [constructor]: the inherited [toString] is
    called and the falsy [constructor] ends the loop. *)
Lemma plain_lookup_terminates_witness :
  plain_lookup [("a", VStr "x"); ("constructor", VStr "")]
  /\ count_char "$" "$(a)/$(toString)/$(constructor)" <= 3
  /\ resolveVariables 3 (VStr "$(a)/$(toString)/$(constructor)")
       [("a", VStr "x"); ("constructor", VStr "")]
     <> Hang.
Proof.
  assert (P : plain_lookup [("a", VStr "x"); ("constructor", VStr "")]).
  { split; [| discriminate]. intros k v. cbn [Obj.own own_properties literal].
    destruct (String.eqb k "a"); [intros [= <-] _; reflexivity |].
    destruct (String.eqb k "constructor");
      [intros [= <-]; discriminate | discriminate]. }
  assert (C : count_char "$" "$(a)/$(toString)/$(constructor)" <= 3)
    by (cbn; lia).
  split; [exact P | split; [exact C |]].
  exact (plain_lookup_terminates 3 "$(a)/$(toString)/$(constructor)" _ P C).
Defined.

(** [resolveVariables] never returns an array: a string gives a string,
    a primitive gives itself, and an array or an object gives a plain
    object. *)
Theorem resolveVariables_returns_no_array (fuel : nat) (input : value)
  (lookup : obj) (v : value) :
  resolveVariables fuel input lookup = Ok v ->
  (forall l, v <> VArr l)
  /\ (is_string input = true -> is_string v = true)
  /\ (is_container input = true -> exists o, v = VObj o)
  /\ (passes_through input = true -> v = input).
Proof.
  intros R. split; [|split; [|split]].
  - intros l. destruct (is_container input) eqn:C.
    + apply (resolveVariables_container fuel input lookup v C) in R as [o ->].
      discriminate.
    + now apply (resolveVariables_not_array fuel input lookup).
  - destruct input; try discriminate. intros _.
    apply resolveVariables_string in R as [t [-> _]]. reflexivity.
  - intros C. now apply (resolveVariables_container fuel input lookup).
  - destruct input; try discriminate; intros _;
      cbn [resolveVariables] in R; now injection R as <-.
Qed.

Lemma resolveVariables_returns_no_array_witness :
  resolveVariables 4 (VArr [VStr "$(a)"; VNull]) [("a", VStr "x")]
  = Ok (VObj [("0", VStr "x"); ("1", VNull)])
  /\ forall l, VObj [("0", VStr "x"); ("1", VNull)] <> VArr l.
Proof.
  split; [reflexivity |].
  exact (proj1 (resolveVariables_returns_no_array 4
                  (VArr [VStr "$(a)"; VNull]) [("a", VStr "x")] _ eq_refl)).
Defined.

(** ** The traversal *)

(** [traverse] is the flattening followed by the handling of the items
    in their order: every leaf it hands to [resolveVariables] is a
    string or a primitive, never an array or an object, and every
    announcement is for an array. *)
Theorem traverse_flattens_then_stores (fuel : nat) (node : value)
  (path : string) (m : obj) :
  node <> VUndefined -> node <> VNull ->
  traverse fuel node path m = process fuel (items node path) m
  /\ (forall k val, In (Leaf k val) (items node path) ->
        is_container val = false)
  /\ (forall k val, In (Marker k val) (items node path) -> isArray val = true).
Proof.
  intros U N. split; [now apply traverse_process |].
  pose proof (items_shape node path) as Sh. rewrite Forall_forall in Sh.
  split; intros k val I; specialize (Sh _ I); cbn in Sh; [exact Sh |].
  destruct Sh as [l ->]. reflexivity.
Qed.

Lemma traverse_flattens_then_stores_witness :
  VObj [("a", VArr [VStr "x"; VObj [("b", VNull)]])] <> VUndefined
  /\ VObj [("a", VArr [VStr "x"; VObj [("b", VNull)]])] <> VNull
  /\ items (VObj [("a", VArr [VStr "x"; VObj [("b", VNull)]])]) ""
     = [Marker "a" (VArr [VStr "x"; VObj [("b", VNull)]]);
        Leaf "a.0" (VStr "x"); Leaf "a.1.b" VNull]
  /\ traverse 2 (VObj [("a", VArr [VStr "x"; VObj [("b", VNull)]])]) "" []
     = process 2
         (items (VObj [("a", VArr [VStr "x"; VObj [("b", VNull)]])]) "") [].
Proof.
  assert (U : VObj [("a", VArr [VStr "x"; VObj [("b", VNull)]])] <> VUndefined)
    by discriminate.
  assert (N : VObj [("a", VArr [VStr "x"; VObj [("b", VNull)]])] <> VNull)
    by discriminate.
  split; [exact U | split; [exact N | split; [reflexivity |]]].
  exact (proj1 (traverse_flattens_then_stores 2 _ "" [] U N)).
Defined.

Lemma process_announces (fuel : nat) (its : list item) (m : obj)
  (es : list event) (m' : obj) :
  process fuel its m = (es, Ok m') -> es = announcements its.
Proof.
  revert m es; induction its as [|[k val|k val] its IH]; intros m es;
    cbn [process announcements].
  - now intros [= <- _].
  - unfold store_leaf.
    destruct (resolveVariables fuel val m) as [v| |]; cbn [rmap andThen];
      try discriminate.
    destruct (process fuel its (Obj.set m k v)) as [es' r] eqn:E.
    intros [= <- ->]. cbn [app]. exact (IH _ _ E).
  - destruct (process fuel its m) as [es' r] eqn:E.
    intros [= <- ->]. f_equal. exact (IH _ _ E).
Qed.

Lemma traversal_events_are_announcements (fuel : nat) (doc : value)
  (es : list event) (m : obj) :
  traverse fuel doc "" [] = (es, Ok m) -> es = announcements (items doc "").
Proof.
  intros T.
  assert (U : doc <> VUndefined) by (intros ->; discriminate).
  assert (N : doc <> VNull) by (intros ->; discriminate).
  rewrite (traverse_process fuel doc U N) in T.
  now apply process_announces in T.
Qed.

Lemma announcements_app (a b : list item) :
  announcements (a ++ b) = announcements a ++ announcements b.
Proof.
  induction a as [|[k v|k v] a IH]; cbn [announcements app];
    [reflexivity | exact IH | now rewrite IH].
Qed.

(** The flattening holds one marker for every sequence strictly inside
    the node. *)
Lemma announcements_count (node : value) (path : string) :
  List.length (announcements (items node path)) = nested_sequences node.
Proof.
  revert path.
  assert (V : forall val path key,
             (forall path, List.length (announcements (items val path))
                           = nested_sequences val) ->
             List.length (announcements (visit_items items path key val))
             = sequences val).
  { intros val path key IH. unfold visit_items.
    destruct val; try reflexivity.
    - cbn [announcements List.length]. now rewrite IH.
    - now rewrite IH. }
  induction node as [ | | b | z | s | l IH | props IH] using value_induction;
    intros path; cbn [items nested_sequences]; try reflexivity.
  - assert (H : forall i,
               List.length
                 (announcements
                    (List.map (fun kv => Leaf (full_key path (fst kv)) (snd kv))
                       (chars s i))) = 0).
    { induction s as [|c s IHs]; intros i; cbn [chars map announcements];
        [reflexivity | apply IHs]. }
    apply H.
  - generalize 0 as i.
    induction IH as [|val l Hval _ IHl]; intros i; [reflexivity |].
    rewrite announcements_app, length_app, (V val path _ Hval), (IHl (S i)).
    reflexivity.
  - induction IH as [|[key val] props Hval _ IHl]; [reflexivity |].
    rewrite announcements_app, length_app, (V val path _ Hval), IHl.
    reflexivity.
Qed.

(** A traversal that succeeds publishes one output for every sequence
    that is the value of a key or an element of a sequence, at any
    depth, in the order in which the flattening meets them, and nothing
    else; every output carries a list; the document itself, when it is
    a sequence, is not announced. *)
Theorem traversal_announces_each_sequence (fuel : nat) (doc : value)
  (es : list event) (m : obj) :
  traverse fuel doc "" [] = (es, Ok m) ->
  es = announcements (items doc "")
  /\ List.length es = nested_sequences doc
  /\ (forall l, doc = VArr l -> S (List.length es) = sequences doc)
  /\ (forall e, In e es ->
        exists fullKey l, e = SetOutput (fullKey ++ ".array") (VArr l)).
Proof.
  intros T.
  assert (U : doc <> VUndefined) by (intros ->; discriminate).
  assert (N : doc <> VNull) by (intros ->; discriminate).
  rewrite (traverse_process fuel doc U N) in T.
  assert (A : es = announcements (items doc ""))
    by now apply process_announces in T.
  assert (C : List.length es = nested_sequences doc)
    by (rewrite A; apply announcements_count).
  split; [exact A | split; [exact C | split]].
  - intros l ->. now rewrite C.
  - intros e I.
    assert (J : In e (fst (process fuel (items doc "") []))) by now rewrite T.
    apply process_events in J as [fullKey [val [M ->]]].
    pose proof (items_shape doc "") as Sh. rewrite Forall_forall in Sh.
    specialize (Sh _ M). cbn in Sh. destruct Sh as [l ->].
    now exists fullKey, l.
Qed.

(** A document that is a sequence with a sequence in it: the inner one
    is announced, the document is not. *)
Lemma traversal_announces_each_sequence_witness :
  traverse 2 (VArr [VArr [VStr "1"]; VStr "2"]) "" []
  = ([SetOutput "0.array" (VArr [VStr "1"])],
     Ok [("1", VStr "2"); ("0.0", VStr "1")])
  /\ sequences (VArr [VArr [VStr "1"]; VStr "2"]) = 2
  /\ List.length [SetOutput "0.array" (VArr [VStr "1"])]
     = nested_sequences (VArr [VArr [VStr "1"]; VStr "2"]).
Proof.
  split; [reflexivity | split; [reflexivity |]].
  exact (proj1 (proj2 (traversal_announces_each_sequence 2
                  (VArr [VArr [VStr "1"]; VStr "2"]) _ _ eq_refl))).
Defined.

(** Below a path that is not empty every flat key starts with the
    path and a dot. *)
Theorem flat_keys_extend_the_path (node : value) (path k : string) :
  path <> "" ->
  In k (leaf_keys (items node path)) ->
  prefix (path ++ ".") k = true.
Proof.
  intros P I. apply items_keys in I as [key [rest [-> _]]].
  unfold full_key. apply String.eqb_neq in P. rewrite P.
  replace (path ++ "." ++ key)%string with ((path ++ ".") ++ key)%string
    by apply StrFacts.app_assoc.
  rewrite StrFacts.app_assoc. apply StrFacts.prefix_app.
Qed.

Lemma flat_keys_extend_the_path_witness :
  "svc" <> ""
  /\ In "svc.ports.1"
        (leaf_keys (items (VObj [("ports", VArr [VStr "80"; VStr "443"])]) "svc"))
  /\ prefix "svc." "svc.ports.1" = true.
Proof.
  assert (P : "svc" <> "") by discriminate.
  assert (I : In "svc.ports.1"
                (leaf_keys
                   (items (VObj [("ports", VArr [VStr "80"; VStr "443"])]) "svc")))
    by (cbn; tauto).
  split; [exact P | split; [exact I |]].
  exact (flat_keys_extend_the_path _ "svc" "svc.ports.1" P I).
Defined.

(** *** The keys of the mapping *)

Lemma own_none_keys (m : list (string * value)) (k : string) :
  Obj.own m k = None <-> ~ In k (List.map fst m).
Proof.
  induction m as [|[k0 v0] m IH]; cbn [Obj.own List.map fst In].
  - tauto.
  - destruct (String.eqb k k0) eqn:E.
    + apply String.eqb_eq in E. subst k0. split; [discriminate | tauto].
    + apply String.eqb_neq in E. rewrite IH. split.
      * intros H [->|I]; [now elim E | tauto].
      * tauto.
Qed.

Lemma update_keys (m : list (string * value)) (k : string) (v : value) :
  List.map fst (Obj.update m k v) = List.map fst m.
Proof.
  induction m as [|[k0 v0] m IH]; cbn [Obj.update List.map fst];
    [reflexivity |].
  destruct (String.eqb k k0); cbn [List.map fst]; [reflexivity |].
  now rewrite IH.
Qed.

Lemma insert_index_keys (n : N) (m : list (string * value)) (k : string)
  (v : value) :
  Add k (List.map fst m) (List.map fst (Obj.insert_index n k v m)).
Proof.
  induction m as [|[k0 v0] m IH]; cbn [Obj.insert_index List.map fst].
  - constructor.
  - destruct (Obj.array_index k0) as [n'|]; [destruct (N.ltb n n') |];
      cbn [List.map fst]; try constructor. exact IH.
Qed.

Lemma put_keys_NoDup (m : list (string * value)) (k : string) (v : value) :
  NoDup (List.map fst m) -> NoDup (List.map fst (Obj.put m k v)).
Proof.
  intros D. unfold Obj.put. destruct (Obj.own m k) eqn:O.
  - now rewrite update_keys.
  - apply own_none_keys in O. destruct (Obj.array_index k).
    + apply (NoDup_Add (insert_index_keys n m k v)). now split.
    + rewrite List.map_app. cbn [List.map fst].
      apply (NoDup_Add (a := k) (l := List.map fst m)); [|now split].
      clear. induction (List.map fst m) as [|x l IH]; cbn; constructor.
      exact IH.
Qed.

Lemma set_keys_NoDup (m : obj) (k : string) (v : value) :
  NoDup (List.map fst m) -> NoDup (List.map fst (Obj.set m k v)).
Proof.
  intros D. destruct (ObjFacts.set_cases m k v) as [-> | (_ & _ & _ & ->)];
    [now apply put_keys_NoDup | exact D].
Qed.

Lemma process_keys_NoDup (fuel : nat) (its : list item) (m : obj)
  (es : list event) (m' : obj) :
  process fuel its m = (es, Ok m') ->
  NoDup (List.map fst m) -> NoDup (List.map fst m').
Proof.
  revert m es; induction its as [|[k val|k val] its IH]; intros m es;
    cbn [process].
  - now intros [= _ <-].
  - unfold store_leaf.
    destruct (resolveVariables fuel val m) as [v| |]; cbn [rmap andThen];
      try discriminate.
    destruct (process fuel its (Obj.set m k v)) as [es' r] eqn:E.
    intros [= _ ->] D. apply (IH _ _ E). now apply set_keys_NoDup.
  - destruct (process fuel its m) as [es' r] eqn:E.
    intros [= _ ->] D. now apply (IH _ _ E).
Qed.

(** A leaf whose flat key is not [__proto__] leaves an entry. *)
Lemma process_defines (fuel : nat) (its : list item) (m : obj)
  (es : list event) (m' : obj) (k : string) :
  process fuel its m = (es, Ok m') ->
  k <> "__proto__" ->
  In k (leaf_keys its) \/ Obj.own m k <> None ->
  Obj.own m' k <> None.
Proof.
  intros T NP. revert m es T;
    induction its as [|[k0 val|k0 val] its IH]; intros m es;
    cbn [process leaf_keys In].
  - intros [= _ <-] [[]|H]. exact H.
  - unfold store_leaf.
    destruct (resolveVariables fuel val m) as [v| |]; cbn [rmap andThen];
      try discriminate.
    destruct (process fuel its (Obj.set m k0 v)) as [es' r] eqn:E.
    intros [= _ ->] H. apply (IH _ _ E).
    destruct (String.eqb k k0) eqn:Ek.
    + apply String.eqb_eq in Ek. subst k0. right.
      now rewrite ObjFacts.own_set_same.
    + apply String.eqb_neq in Ek. destruct H as [[->|H]|H];
        [now elim Ek | now left | right].
      now rewrite ObjFacts.own_set_other.
  - destruct (process fuel its m) as [es' r] eqn:E.
    intros [= _ ->] H. now apply (IH _ _ E).
Qed.

(** The mapping a traversal builds has each of its keys once; each of
    its keys is the flat key of a leaf of the document, and the flat key
    of a leaf is a key of the mapping unless it is [__proto__], which
    the assignment hands to the setter of [Object.prototype]: a flat
    key that two leaves share gives one entry, and the leaf [__proto__]
    with a string gives none. *)
Theorem mapping_keys_are_the_flat_keys (fuel : nat) (doc : value)
  (es : list event) (m : obj) :
  traverse fuel doc "" [] = (es, Ok m) ->
  NoDup (List.map fst m)
  /\ (forall k, In k (List.map fst m) -> In k (leaf_keys (items doc "")))
  /\ (forall k, In k (leaf_keys (items doc "")) -> k <> "__proto__" ->
        In k (List.map fst m))
  /\ traverse fuel (VObj [("__proto__", VStr "x"); ("a", VStr "1")]) "" []
     = ([], Ok [("a", VStr "1")]).
Proof.
  intros T.
  assert (U : doc <> VUndefined) by (intros ->; discriminate).
  assert (N : doc <> VNull) by (intros ->; discriminate).
  rewrite (traverse_process fuel doc U N) in T. split; [|split; [|split]].
  - apply (process_keys_NoDup _ _ _ _ _ T). constructor.
  - intros k I. destruct (in_dec string_dec k (leaf_keys (items doc "")))
      as [J|J]; [exact J |].
    pose proof (process_frame _ _ _ _ _ k T J) as F.
    cbn [Obj.own own_properties literal] in F.
    apply own_none_keys in F. now elim F.
  - intros k I NP.
    pose proof (process_defines _ _ _ _ _ k T NP (or_introl I)) as D.
    destruct (in_dec string_dec k (List.map fst m)) as [J|J]; [exact J |].
    apply own_none_keys in J. now elim D.
  - now destruct fuel.
Qed.

Lemma mapping_keys_are_the_flat_keys_witness :
  traverse 2 (VObj [("a.b", VStr "1"); ("a", VObj [("b", VStr "2")])]) "" []
  = ([], Ok [("a.b", VStr "2")])
  /\ NoDup (List.map fst [("a.b", VStr "2")]).
Proof.
  split; [reflexivity |].
  exact (proj1 (mapping_keys_are_the_flat_keys 2
                  (VObj [("a.b", VStr "1"); ("a", VObj [("b", VStr "2")])])
                  [] [("a.b", VStr "2")] eq_refl)).
Defined.

(** Every entry of the mapping comes from a leaf with its flat key,
    and a leaf without a token is stored as it is: a string that holds
    no reference and a primitive are not changed by the traversal. *)
Theorem leaves_without_token_are_stored_unchanged (fuel : nat) (doc : value)
  (es : list event) (m : obj) (k : string) (v : value) :
  traverse fuel doc "" [] = (es, Ok m) ->
  In (k, v) m ->
  exists val,
    In (Leaf k val) (items doc "")
    /\ (is_string val = false -> v = val)
    /\ (forall s, val = VStr s -> find_token s = None -> v = val).
Proof.
  intros T I.
  assert (U : doc <> VUndefined) by (intros ->; discriminate).
  assert (N : doc <> VNull) by (intros ->; discriminate).
  rewrite (traverse_process fuel doc U N) in T.
  destruct (process_stored _ _ _ _ _ _ _ T I) as [[]|[val [lk [L R]]]].
  exists val. split; [exact L |].
  pose proof (items_shape doc "") as Sh. rewrite Forall_forall in Sh.
  specialize (Sh _ L). cbn in Sh. split.
  - intros S. destruct val; try discriminate;
      cbn [resolveVariables] in R; now injection R as <-.
  - intros s -> F. cbn [resolveVariables] in R.
    rewrite (resolve_loop_done fuel s lk F) in R. now injection R as <-.
Qed.

Lemma leaves_without_token_are_stored_unchanged_witness :
  traverse 2 (VObj [("a", VStr "x"); ("b", VNull)]) "" []
  = ([], Ok [("a", VStr "x"); ("b", VNull)])
  /\ exists val,
       In (Leaf "b" val) (items (VObj [("a", VStr "x"); ("b", VNull)]) "")
       /\ (is_string val = false -> VNull = val)
       /\ (forall s, val = VStr s -> find_token s = None -> VNull = val).
Proof.
  split; [reflexivity |].
  apply (leaves_without_token_are_stored_unchanged 2
           (VObj [("a", VStr "x"); ("b", VNull)]) []
           [("a", VStr "x"); ("b", VNull)] "b" VNull eq_refl).
  cbn. tauto.
Defined.

(** ** The filter and the publication *)

Lemma filter_key_fresh (m : matcher) (key : string) :
  filter_key (Some (mkRegExp m 0)) key
  = (match search_from m key 0 with Some _ => true | None => false end,
     match search_from m key 0 with
     | Some _ => fst (String_replace_all key (mkRegExp m 0) "")
     | None => key
     end,
     Some (mkRegExp m 0)).
Proof.
  unfold filter_key, RegExp_test. cbn [matcher_of lastIndex].
  destruct (search_from m key 0) as [[i e]|]; reflexivity.
Qed.

(** The pattern object carries no state from one key to the next: the
    loop leaves [lastIndex] at 0 after every key, so that every key is
    tested from its start and the events of the loop are those of the
    keys taken one by one, in the order of the mapping. *)
Theorem keys_are_decided_independently (m : matcher) (envPrefix : string)
  (entries : obj) :
  publish (Some (mkRegExp m 0)) envPrefix entries
  = flat_map (publish_key m envPrefix) entries
  /\ forall key,
       lastIndex_after (filter_key (Some (mkRegExp m 0)) key) = Some 0.
Proof.
  split.
  - induction (own_properties entries) as [|[k v] rest IH]; [reflexivity |].
    cbn [publish flat_map]. rewrite filter_key_fresh, IH.
    unfold publish_key. cbn [fst snd].
    now destruct (search_from m k 0).
  - intros key. now rewrite filter_key_fresh.
Qed.

Lemma search_nowhere (m : matcher) (s : string) (n from : nat) :
  (forall j, from <= j -> m s j = None) -> search m s n from = None.
Proof.
  revert from; induction n as [|n IH]; intros from H; cbn [search];
    [reflexivity |].
  rewrite (H from) by lia. apply IH. intros j Hj. apply H. lia.
Qed.

(** A pattern that matches a key at its start and nowhere after, as a
    pattern anchored with [^] does, strips that prefix: the output key
    is the flat key from the end of the match on. *)
Theorem anchored_pattern_strips_prefix (m : matcher) (key : string) (e : nat) :
  m key 0 = Some e ->
  (forall j, 0 < j -> m key j = None) ->
  fst (filter_key (Some (mkRegExp m 0)) key) = (true, Str.drop e key).
Proof.
  intros M0 A.
  assert (S0 : search_from m key 0 = Some (0, e)).
  { unfold search_from. rewrite Nat.sub_0_r. cbn [search]. now rewrite M0. }
  rewrite filter_key_fresh, S0. cbn [fst].
  unfold String_replace_all. cbn [fst matcher_of replace_loop].
  rewrite S0. cbn [Nat.leb Nat.sub Str.take Str.drop append Nat.add].
  replace (e - 0) with e by lia.
  assert (S1 : search_from m key (if Nat.leb e 0 then S e else e) = None).
  { apply search_nowhere. intros j Hj. apply A.
    destruct (Nat.leb e 0) eqn:L; [lia |]. apply Nat.leb_gt in L. lia. }
  rewrite S1. reflexivity.
Qed.

Lemma anchored_pattern_strips_prefix_witness :
  Pattern.match_atoms [Pattern.Bol; Pattern.Lit "a"; Pattern.Lit "."] "a.a.b" 0
  = Some 2
  /\ fst (filter_key
            (Some (mkRegExp
                     (Pattern.match_atoms
                        [Pattern.Bol; Pattern.Lit "a"; Pattern.Lit "."]) 0))
            "a.a.b")
     = (true, "a.b").
Proof.
  split; [reflexivity |].
  apply (anchored_pattern_strips_prefix
           (Pattern.match_atoms [Pattern.Bol; Pattern.Lit "a"; Pattern.Lit "."])
           "a.a.b" 2 eq_refl).
  intros [|j] H; [lia | reflexivity].
Defined.

Lemma replace_loop_empty_matches (m : matcher) (s : string) :
  (forall i e, i <= String.length s -> m s i = Some e -> e = i) ->
  forall fuel from next,
    next <= from ->
    replace_loop fuel m s "" from next = Str.drop next s.
Proof.
  intros E. induction fuel as [|fuel IH]; intros from next L;
    cbn [replace_loop]; [reflexivity |].
  destruct (search_from m s from) as [[i e]|] eqn:S0; [|reflexivity].
  pose proof (search_from_some _ _ _ _ _ S0) as [B [M _]].
  pose proof (E i e (proj2 B) M) as ->.
  rewrite Nat.leb_refl.
  assert (Ln : Nat.leb next i = true) by (apply Nat.leb_le; lia).
  rewrite Ln. cbn [append]. replace (i + (i - i)) with i by lia.
  rewrite IH by lia.
  rewrite <- (StrFacts.take_drop (i - next) (Str.drop next s)) at 2.
  rewrite StrFacts.drop_drop. now replace (next + (i - next)) with i by lia.
Qed.

(** A pattern whose matches in the key are all empty, such as [^] or
    [$], includes the key and leaves its name as it is. *)
Theorem empty_matches_keep_the_key (m : matcher) (key : string) (i : nat) :
  (forall j e, j <= String.length key -> m key j = Some e -> e = j) ->
  i <= String.length key -> m key i = Some i ->
  fst (filter_key (Some (mkRegExp m 0)) key) = (true, key).
Proof.
  intros E L M. rewrite filter_key_fresh.
  destruct (search_from m key 0) as [[j e]|] eqn:S0.
  - cbn [fst]. unfold String_replace_all. cbn [fst matcher_of].
    now rewrite (replace_loop_empty_matches m key E) by lia.
  - pose proof (search_from_none _ _ _ S0 i) as H.
    rewrite H in M by lia. discriminate.
Qed.

Lemma empty_matches_keep_the_key_witness :
  Pattern.match_atoms [Pattern.Eol] "a.b" 3 = Some 3
  /\ fst (filter_key (Some (mkRegExp (Pattern.match_atoms [Pattern.Eol]) 0))
            "a.b")
     = (true, "a.b").
Proof.
  split; [reflexivity |].
  apply (empty_matches_keep_the_key (Pattern.match_atoms [Pattern.Eol])
           "a.b" 3); [| cbn; lia | reflexivity].
  intros j e _. cbn [Pattern.match_atoms].
  destruct (Nat.eqb j (String.length "a.b")); [now intros [= <-] | discriminate].
Defined.

(** Without a pattern the loop publishes one output per entry of the
    mapping, under the flat key, with the stored value and in the order
    of the mapping, whatever the prefix is. *)
Theorem outputs_without_pattern_are_the_entries (envPrefix : string)
  (entries : obj) :
  set_outputs (publish None envPrefix entries) = entries.
Proof.
  induction (own_properties entries) as [|[k v] rest IH]; [reflexivity |].
  cbn [publish filter_key]. unfold publish_entry.
  destruct (negb (String.eqb envPrefix "")); cbn [app set_outputs];
    now rewrite IH.
Qed.

(** The part of the name of an environment variable that comes from
    the output key has the length of the key and holds neither a dot
    nor a hyphen; the prefix is taken as it is. *)
Theorem env_name_has_no_dot_or_hyphen (envPrefix outputKey : string) :
  exists cleaned,
    env_name envPrefix outputKey = (envPrefix ++ "_" ++ cleaned)%string
    /\ String.length cleaned = String.length outputKey
    /\ Str.mem "." cleaned = false
    /\ Str.mem "-" cleaned = false.
Proof.
  exists (Str.map underscore outputKey).
  split; [apply env_name_clean |].
  split; [apply StrFacts.length_map |].
  induction outputKey as [|c s [D H]]; [split; reflexivity |].
  cbn [Str.map Str.mem]. rewrite D, H, !orb_false_r. unfold underscore.
  destruct (Ascii.eqb c ".") eqn:E1; [split; reflexivity |].
  destruct (Ascii.eqb c "-") eqn:E2; [split; reflexivity |].
  cbn [orb]. now rewrite Ascii.eqb_sym, E1, Ascii.eqb_sym, E2.
Qed.

(** ** Invocations *)

Lemma on_read_cases (w : world) (filterPattern envPrefix raw : string) :
  on_read w filterPattern envPrefix raw
  = match yaml_load w raw with
    | Throw e => (banner filterPattern, Throw e)
    | Hang => (banner filterPattern, Hang)
    | Ok parsed =>
        match traverse (fuel_of w) parsed "" [] with
        | (es, Throw e) => (banner filterPattern ++ es, Throw e)
        | (es, Hang) => (banner filterPattern ++ es, Hang)
        | (es, Ok resolvedValues) =>
            if negb (String.eqb filterPattern "") then
              match RegExp_new w filterPattern with
              | Throw e => (banner filterPattern ++ es, Throw e)
              | Hang => (banner filterPattern ++ es, Hang)
              | Ok m =>
                  (banner filterPattern ++ es
                   ++ publish (Some (mkRegExp m 0)) envPrefix resolvedValues,
                   Ok tt)
              end
            else
              (banner filterPattern ++ es
               ++ publish None envPrefix resolvedValues, Ok tt)
        end
    end.
Proof. reflexivity. Qed.

Lemma banner_events (filterPattern : string) (e : event) :
  In e (banner filterPattern) -> exists message, e = LogInfo message.
Proof.
  unfold banner. destruct (negb (String.eqb filterPattern "")); cbn;
    intros H; repeat destruct H as [<-|H]; try destruct H; eauto.
Qed.

Lemma traverse_events_markers (fuel : nat) (node : value) (path : string)
  (m : obj) (e : event) :
  In e (fst (traverse fuel node path m)) ->
  exists k l, e = SetOutput (k ++ ".array") (VArr l).
Proof.
  destruct node as [ | | b | z | s | l | props] eqn:N;
    try (cbn [traverse fst]; intros []);
    rewrite traverse_process by discriminate;
    intros H; apply process_events in H as [k [v [I ->]]];
    pose proof (items_shape node path) as Sh; rewrite Forall_forall in Sh;
    subst node; specialize (Sh _ I); cbn in Sh; destruct Sh as [l' ->];
    eauto.
Qed.

(** An invocation that reads the file and does not exit ends as its
    callback ends: a document that is parsed and traversed and a
    pattern that compiles give the lines of the log, then the
    announcements of the sequences, then the events of the publication
    loop, and the invocation finishes. *)
Theorem successful_run_publishes_in_order (w : world) (raw : string)
  (parsed : value) (es : list event) (resolvedValues : obj) :
  subscription w <> Forbidden ->
  readFile w (getInput w "config") = Contents raw ->
  yaml_load w raw = Ok parsed ->
  traverse (fuel_of w) parsed "" [] = (es, Ok resolvedValues) ->
  (getInput w "key-path-pattern" = "" ->
   run w
   = (fst (validateSubscription w) ++ banner "" ++ es
      ++ publish None (getInput w "env-var-prefix") resolvedValues,
      Finished))
  /\ (forall m,
        getInput w "key-path-pattern" <> "" ->
        RegExp_new w (getInput w "key-path-pattern") = Ok m ->
        run w
        = (fst (validateSubscription w)
           ++ banner (getInput w "key-path-pattern") ++ es
           ++ publish (Some (mkRegExp m 0)) (getInput w "env-var-prefix")
                resolvedValues,
           Finished)).
Proof.
  intros S R Y T. split.
  - intros E. rewrite (run_reads w S), R. cbn [callback].
    rewrite on_read_cases, Y, T, E. reflexivity.
  - intros m E C. rewrite (run_reads w S), R. cbn [callback].
    rewrite on_read_cases, Y, T, C. apply String.eqb_neq in E. rewrite E.
    reflexivity.
Qed.

Lemma successful_run_publishes_in_order_witness :
  subscription sequence_world <> Forbidden
  /\ run sequence_world
     = ([LogInfo "Filter pattern detected: ^name";
         LogInfo "YAML file content loaded successfully.";
         SetOutput "ports.array" (VArr [VStr "80"; VStr "443"]);
         LogInfo " : web"; SetOutput "" (VStr "web");
         LogInfo "APP_=web"; ExportVariable "APP_" (VStr "web")],
        Finished).
Proof.
  assert (S : subscription sequence_world <> Forbidden) by discriminate.
  split; [exact S |].
  assert (E : getInput sequence_world "key-path-pattern" <> "")
    by discriminate.
  exact (proj2 (successful_run_publishes_in_order sequence_world _ _ _ _
                  S eq_refl eq_refl eq_refl) _ E eq_refl).
Defined.

(** An invocation that does not finish publishes no key: when the
    process exits, an exception is left uncaught or a loop does not
    end, the events hold lines of the log and announcements of
    sequences only, no output for a leaf and no environment variable. *)
Theorem failed_run_publishes_no_key (w : world) (e : event) :
  snd (run w) <> Finished ->
  In e (fst (run w)) ->
  (exists message, e = LogInfo message \/ e = LogError message)
  \/ exists k l, e = SetOutput (k ++ ".array") (VArr l).
Proof.
  destruct (subscription w) eqn:S.
  2: { unfold run, run_try, validateSubscription. rewrite S. cbn.
       intros _ [<-|[]]. left. eauto. }
  all: rewrite run_reads by (rewrite S; discriminate); cbn [fst snd];
    intros F H; apply in_app_or in H as [H|H];
    [apply validateSubscription_events in H as [x H]; left; eauto |];
    unfold callback in *;
    destruct (readFile w (getInput w "config")) as [msg|raw];
    [now elim F |];
    rewrite on_read_cases in *;
    destruct (yaml_load w raw) as [parsed| |];
    try (cbn [fst] in H; apply banner_events in H as [x ->]; left; now eauto);
    pose proof (traverse_events_markers (fuel_of w) parsed "" [] e) as Tm;
    destruct (traverse (fuel_of w) parsed "" []) as [es [m| |]];
    cbn [fst] in Tm;
    try (cbn [fst] in H; apply in_app_or in H as [H|H];
         [apply banner_events in H as [x ->]; left; now eauto
         | right; now apply Tm]);
    destruct (negb (String.eqb (getInput w "key-path-pattern") ""));
    [destruct (RegExp_new w (getInput w "key-path-pattern")) |];
    try (now elim F);
    cbn [fst] in H; apply in_app_or in H as [H|H];
    [apply banner_events in H as [x ->]; left; now eauto
    | right; now apply Tm
    | apply banner_events in H as [x ->]; left; now eauto
    | right; now apply Tm].
Qed.

Lemma failed_run_publishes_no_key_witness :
  snd (run bad_pattern_world) <> Finished
  /\ run bad_pattern_world
     = ([LogInfo "Filter pattern detected: (";
         LogInfo "YAML file content loaded successfully.";
         SetOutput "ports.array" (VArr [VStr "80"])],
        Uncaught "Invalid regular expression: /(/g")
  /\ ((exists message,
         SetOutput "ports.array" (VArr [VStr "80"]) = LogInfo message
         \/ SetOutput "ports.array" (VArr [VStr "80"]) = LogError message)
      \/ exists k l,
           SetOutput "ports.array" (VArr [VStr "80"])
           = SetOutput (k ++ ".array") (VArr l)).
Proof.
  assert (F : snd (run bad_pattern_world) <> Finished) by discriminate.
  split; [exact F | split; [reflexivity |]].
  apply (failed_run_publishes_no_key bad_pattern_world _ F).
  cbn. tauto.
Defined.

(** A document that the parser reads as [undefined] or [null], such as
    an empty file, stops the callback with the [TypeError] of
    [Object.entries]: nothing is published and the exception is left
    uncaught. *)
Theorem empty_document_throws (w : world) (raw : string) (parsed : value) :
  subscription w <> Forbidden ->
  readFile w (getInput w "config") = Contents raw ->
  yaml_load w raw = Ok parsed ->
  parsed = VUndefined \/ parsed = VNull ->
  run w
  = (fst (validateSubscription w) ++ banner (getInput w "key-path-pattern"),
     Uncaught entries_TypeError).
Proof.
  intros S R Y P. rewrite (run_reads w S), R. cbn [callback].
  rewrite on_read_cases, Y.
  destruct P as [-> | ->]; cbn [traverse fst snd ending_of];
    now rewrite app_nil_r.
Qed.

Lemma empty_document_throws_witness :
  run empty_world
  = ([LogInfo "YAML file content loaded successfully."],
     Uncaught "Cannot convert undefined or null to object").
Proof.
  assert (S : subscription empty_world <> Forbidden) by discriminate.
  exact (empty_document_throws empty_world "" VUndefined S eq_refl eq_refl
           (or_introl eq_refl)).
Defined.

(** An exception of the parser stops the callback after the lines of
    the log: nothing is traversed or published and the exception is
    left uncaught with its message. *)
Theorem parse_error_publishes_nothing (w : world) (raw e : string) :
  subscription w <> Forbidden ->
  readFile w (getInput w "config") = Contents raw ->
  yaml_load w raw = Throw e ->
  run w
  = (fst (validateSubscription w) ++ banner (getInput w "key-path-pattern"),
     Uncaught e).
Proof.
  intros S R Y. rewrite (run_reads w S), R. cbn [callback].
  now rewrite on_read_cases, Y.
Qed.

Lemma parse_error_publishes_nothing_witness :
  subscription malformed_world <> Forbidden
  /\ run malformed_world
     = ([LogInfo "Timeout or API not reachable. Continuing to next step.";
         LogInfo "YAML file content loaded successfully."],
        Uncaught "unexpected end of the stream within a flow collection").
Proof.
  assert (S : subscription malformed_world <> Forbidden) by discriminate.
  split; [exact S |].
  exact (parse_error_publishes_nothing malformed_world "a: [" _
           S eq_refl eq_refl).
Defined.

(** The pattern is compiled after the whole document was traversed: a
    pattern that does not compile leaves the sequences announced, no
    key published, and its exception uncaught. *)
Theorem invalid_pattern_is_found_late (w : world) (raw : string)
  (parsed : value) (es : list event) (resolvedValues : obj) (e : string) :
  subscription w <> Forbidden ->
  readFile w (getInput w "config") = Contents raw ->
  yaml_load w raw = Ok parsed ->
  traverse (fuel_of w) parsed "" [] = (es, Ok resolvedValues) ->
  getInput w "key-path-pattern" <> "" ->
  RegExp_new w (getInput w "key-path-pattern") = Throw e ->
  run w
  = (fst (validateSubscription w)
     ++ banner (getInput w "key-path-pattern") ++ announcements (items parsed ""),
     Uncaught e).
Proof.
  intros S R Y T E C. rewrite (run_reads w S), R. cbn [callback].
  rewrite on_read_cases, Y, T, C. apply String.eqb_neq in E. rewrite E.
  cbn [negb fst snd ending_of]. do 3 f_equal.
  now apply (traversal_events_are_announcements (fuel_of w) parsed es
               resolvedValues).
Qed.

Lemma invalid_pattern_is_found_late_witness :
  run bad_pattern_world
  = ([LogInfo "Filter pattern detected: (";
      LogInfo "YAML file content loaded successfully.";
      SetOutput "ports.array" (VArr [VStr "80"])],
     Uncaught "Invalid regular expression: /(/g").
Proof.
  assert (S : subscription bad_pattern_world <> Forbidden) by discriminate.
  assert (E : getInput bad_pattern_world "key-path-pattern" <> "")
    by discriminate.
  exact (invalid_pattern_is_found_late bad_pattern_world _ _ _ _ _
           S eq_refl eq_refl eq_refl E eq_refl).
Defined.

(** The subscription check decides only whether the invocation runs:
    a refusal ends the process with the code 1 before any input or
    file is read, and a service that cannot be reached adds one line
    to the log of the invocation that a valid subscription gives. *)
Theorem subscription_gates_the_run (w : world) :
  run (with_subscription w Forbidden)
  = ([LogError "Subscription is not valid. Reach out to support@stepsecurity.io"],
     Exited 1)
  /\ run (with_subscription w Unreachable)
     = (LogInfo "Timeout or API not reachable. Continuing to next step."
        :: fst (run (with_subscription w Resolved)),
        snd (run (with_subscription w Resolved))).
Proof.
  split; [reflexivity |].
  rewrite !run_reads by discriminate. reflexivity.
Qed.

(** An invocation reads three inputs, [config], [key-path-pattern] and
    [env-var-prefix]: two sets of inputs that agree on them give the
    same invocation. *)
Theorem run_reads_three_inputs (w : world) (inputs : string -> string) :
  inputs "config" = getInput w "config" ->
  inputs "key-path-pattern" = getInput w "key-path-pattern" ->
  inputs "env-var-prefix" = getInput w "env-var-prefix" ->
  run (with_inputs w inputs) = run w.
Proof.
  intros C P E. unfold run, run_try.
  change (validateSubscription (with_inputs w inputs))
    with (validateSubscription w).
  destruct (validateSubscription w) as [es goes_on].
  destruct goes_on; [|reflexivity].
  cbn [getInput with_inputs readFile]. rewrite C, P, E. reflexivity.
Qed.

Lemma run_reads_three_inputs_witness :
  run (with_inputs pattern_world
         (fun name =>
            if String.eqb name "key-path" then "^deployment\."
            else getInput pattern_world name))
  = run pattern_world.
Proof.
  exact (run_reads_three_inputs pattern_world _ eq_refl eq_refl eq_refl).
Defined.

(** An environment variable is exported only when [env-var-prefix] is
    set, and then next to the output of the key it is named after. *)
Theorem exports_need_a_prefix (w : world) (name : string) (v : value) :
  In (ExportVariable name v) (fst (run w)) ->
  getInput w "env-var-prefix" <> ""
  /\ exists outputKey,
       name = env_name (getInput w "env-var-prefix") outputKey
       /\ In (SetOutput outputKey v) (fst (run w)).
Proof.
  destruct (subscription w) eqn:S.
  2: { unfold run, run_try, validateSubscription. rewrite S. cbn.
       intros [H|[]]. discriminate. }
  all: rewrite run_reads by (rewrite S; discriminate); cbn [fst];
    intros H; apply in_app_or in H as [H|H];
    [apply validateSubscription_events in H as [x [H|H]]; discriminate |];
    unfold callback in *;
    destruct (readFile w (getInput w "config")) as [msg|raw];
    [destruct H as [H|[]]; discriminate |];
    rewrite on_read_cases in *;
    destruct (yaml_load w raw) as [parsed| |];
    try (cbn [fst] in H; apply banner_events in H as [x H]; discriminate);
    pose proof (traverse_events_markers (fuel_of w) parsed "" []
                  (ExportVariable name v)) as Tm;
    destruct (traverse (fuel_of w) parsed "" []) as [es [m| |]];
    cbn [fst] in Tm;
    try (cbn [fst] in H; apply in_app_or in H as [H|H];
         [apply banner_events in H as [x H]; discriminate
         | apply Tm in H as [k [l H]]; discriminate]);
    destruct (negb (String.eqb (getInput w "key-path-pattern") ""));
    [destruct (RegExp_new w (getInput w "key-path-pattern")) |];
    cbn [fst] in *;
    (apply in_app_or in H as [H|H];
     [apply banner_events in H as [x H]; discriminate |]);
    try (apply Tm in H as [k [l H]]; discriminate);
    (apply in_app_or in H as [H|H];
     [apply Tm in H as [k [l H]]; discriminate |]);
    apply publish_events in H as [k [o [x [_ [H K]]]]];
    apply publish_entry_events in H as [H|[H|[P [H|H]]]]; try discriminate;
    injection H as -> ->; (split; [exact P |]); exists o;
    (split; [reflexivity |]);
    apply in_or_app; right; apply in_or_app; right; apply in_or_app; right;
    apply K; unfold publish_entry; cbn; tauto.
Qed.

Lemma exports_need_a_prefix_witness :
  In (ExportVariable "APP_CONF_port" (VStr "8080")) (fst (run pattern_world))
  /\ getInput pattern_world "env-var-prefix" <> "".
Proof.
  assert (I : In (ExportVariable "APP_CONF_port" (VStr "8080"))
                 (fst (run pattern_world))) by (cbn; tauto).
  split; [exact I |].
  exact (proj1 (exports_need_a_prefix pattern_world _ _ I)).
Defined.

(** ** The prototype of the mapping *)



(** A mapping without prototype stays without one, and its reads are
    reads of its own properties: every name, [toString] and [__proto__]
    among them, is undefined unless the mapping has a truthy entry for
    it.  The mapping loses its prototype when the document has a key
    [__proto__] without content: the traversal goes on with an empty
    mapping that has no prototype. *)
Theorem mapping_without_prototype (fuel : nat) (current : string)
  (lookup : obj) (i : nat) (name : string) :
  proto lookup = NullPrototype ->
  find_token current = Some (i, name) ->
  (resolveVariables fuel (VStr current) lookup = Throw (not_defined name)
   <-> Obj.own lookup name = None
       \/ exists v, Obj.own lookup name = Some v /\ truthy v = false)
  /\ (forall k v, proto (Obj.set lookup k v) = NullPrototype)
  /\ (forall k v, Obj.own (Obj.set lookup k v) k = Some v)
  /\ (forall rest,
        traverse fuel (VObj (("__proto__", VNull) :: rest)) "" []
        = traverse fuel (VObj rest) "" (mkObj [] NullPrototype)).
Proof.
  intros P F. split; [|split; [|split]].
  - rewrite (first_reference_throws_iff fuel current lookup i name F).
    unfold Obj.get. rewrite P.
    destruct (Obj.own lookup name) as [v|]; cbn [Obj.defined].
    + split.
      * intros T. right. now exists v.
      * intros [H | [v' [[= <-] T]]]; [discriminate | exact T].
    + split; [now left | reflexivity].
  - intros k v. now apply ObjFacts.proto_set.
  - intros k v. unfold Obj.set. rewrite P.
    assert (E : Obj.own (Obj.put lookup k v) k = Some v)
      by now rewrite ObjFacts.own_put, String.eqb_refl.
    destruct (String.eqb k "__proto__"); [| exact E].
    now destruct (Obj.own lookup k).
  - intros rest. cbn [traverse visit is_container full_key String.eqb
                        store_leaf resolveVariables rmap andThen].
    change (Obj.set (literal []) "__proto__" VNull)
      with (mkObj [] NullPrototype).
    match goal with
    | |- (let (es', r) := ?x in _) = _ => now destruct x as [es' r]
    end.
Qed.

(** After the key [__proto__] without content the reference to
    [toString] is undefined. *)
Lemma mapping_without_prototype_witness :
  proto (mkObj [] NullPrototype) = NullPrototype
  /\ find_token "$(toString)" = Some (0, "toString")
  /\ resolveVariables 4 (VStr "$(toString)") (mkObj [] NullPrototype)
     = Throw (not_defined "toString")
  /\ traverse 4
       (VObj [("__proto__", VNull); ("b", VStr "$(toString)")]) "" []
     = ([], Throw (not_defined "toString")).
Proof.
  split; [reflexivity | split; [reflexivity |]].
  destruct (mapping_without_prototype 4 "$(toString)" (mkObj [] NullPrototype)
              0 "toString" eq_refl eq_refl) as [A [_ [_ B]]].
  split.
  - apply (proj2 A). now left.
  - rewrite (B [("b", VStr "$(toString)")]). reflexivity.
Defined.
